(** * gterm: the aggregation engine of the profile generator

    A shallow embedding of the Go sources of the profile generator
    (packages [iterm], [aws], [ssm], [keychain] and [cmd]) and the
    properties of its merge, discovery, hierarchy, reconciliation and
    trigger code.

    Go strings are [string] (sequences of bytes), Go maps are [gmap],
    [map[string]struct{}] is a [gset string], slices are lists, and
    [fmt.Sprintf] with [%s] verbs is string concatenation. *)

From Stdlib Require Import String Ascii List Bool Arith Lia Permutation Sorted.
From Stdlib Require Import OrderedTypeEx.
From stdpp Require Import base strings gmap list sorting.

Local Open Scope string_scope.
Local Open Scope list_scope.

(** ** Package iterm: the record model *)

(** [iterm.KeyboardMap]: the action bound to an input chord. *)
Record KeyboardMap := mkKeyboardMap {
  Action : nat;
  Text : string
}.

(** [iterm.Trigger]: a pattern-matching automation rule. *)
Record Trigger := mkTrigger {
  Partial : bool;
  TriggerParameter : string;
  Regex : string;
  TriggerAction : string
}.

(** [iterm.Profile].  The struct declaration is not among the sources;
    the fields are the ones the sources read and write ([Name], [GUID],
    [Command], [KeyboardMap]) together with the triggers of the data
    model.  [Config] keeps the settings map a profile was built from. *)
Record Profile := mkProfile {
  Name : string;
  GUID : string;
  Command : string;
  Config : gmap string string;
  KeyboardMaps : gmap string KeyboardMap;
  Triggers : list Trigger
}.

#[global] Instance KeyboardMap_eq_dec : EqDecision KeyboardMap.
Proof. solve_decision. Defined.

#[global] Instance Trigger_eq_dec : EqDecision Trigger.
Proof. solve_decision. Defined.

#[global] Instance Profile_eq_dec : EqDecision Profile.
Proof. solve_decision. Defined.

(** Modelled from the spec: [iterm.NewProfile] is not among the sources.
    The identity key is derived from the name alone; the callers fix the
    derivation: [generateCommands] finds the profile that [aws.add]
    built as [NewProfile("login-" + name, config)] by passing that very
    string to [FindGUID].  The command is the [Command] setting that
    [aws.add] stores before the call. *)
Definition NewProfile (name : string) (config : gmap string string) : Profile :=
  {| Name := name;
     GUID := name;
     Command := default "" (config !! "Command");
     Config := config;
     KeyboardMaps := ∅;
     Triggers := [] |}.

(** ** Package iterm: the standard triggers (triggers.go) *)


Definition yum_replacements : gmap string string :=
  {[ "openssh-client" := "openssh-clients" ]}.

Definition yum (name : string) : string :=
  let name := match yum_replacements !! name with
              | Some newName => newName
              | None => name
              end in
  "(yum install --assumeyes " +:+ name +:+ ")".

Definition apk (name : string) : string :=
  "apk add --no-cache " +:+ name.

(** The first alternative of [apt]. *)
Definition aptGet (name : string) : string :=
  "(apt-get update && apt-get --yes --no-install-recommends install "
    +:+ name +:+ ")".

Definition apt_commands (name : string) : list string :=
  [ aptGet name; yum name; apk name ].

Definition apt (name : string) : string :=
  String.concat " || " (apt_commands name).


Section StandardTriggers.
(** [homedir.Expand]: the expanded path, or [None] for an error. *)
Variable homedirExpand : string → option string.

End StandardTriggers.


(** ** Package cmd: the merge step of generateCmd (generate.go) *)

(** A log record of the merge loop: [log.Warn().Str("name", n).Msg(m)]. *)
Record Warning := mkWarning { warnMsg : string; warnName : string }.

#[global] Instance Warning_eq_dec : EqDecision Warning.
Proof. solve_decision. Defined.

(** The variables of the loop: [uniqProf.Profiles], [existingProfiles]
    and the records written to the log. *)
Record MergeState := mkMergeState {
  uniqProf : list Profile;
  existingProfiles : gset string;
  mergeLog : list Warning
}.

Definition mergeInit : MergeState :=
  {| uniqProf := []; existingProfiles := ∅; mergeLog := [] |}.

(** One iteration of [for _, profile := range prof.Profiles]. *)
Definition mergeStep (st : MergeState) (profile : Profile) : MergeState :=
  if decide (Name profile ∈ existingProfiles st) then
    {| uniqProf := uniqProf st;
       existingProfiles := existingProfiles st;
       mergeLog := mergeLog st ++ [mkWarning "duplicate profile" (Name profile)] |}
  else
    {| uniqProf := uniqProf st ++ [profile];
       existingProfiles := {[ Name profile ]} ∪ existingProfiles st;
       mergeLog := mergeLog st |}.

Definition merge (candidates : list Profile) : MergeState :=
  foldl mergeStep mergeInit candidates.

(** The spec's wording of the result: the first occurrence of each
    distinct name, in first-seen order. *)
Fixpoint firstOccurrences (candidates : list Profile) : list Profile :=
  match candidates with
  | [] => []
  | p :: rest =>
      p :: filter (λ q, Name q ≠ Name p) (firstOccurrences rest)
  end.

(** The spec's wording of the warnings: one for every candidate whose
    name was already seen among the candidates before it. *)
Fixpoint duplicateNames (seen : list string) (candidates : list Profile)
  : list string :=
  match candidates with
  | [] => []
  | p :: rest =>
      if decide (Name p ∈ seen)
      then Name p :: duplicateNames seen rest
      else duplicateNames (seen ++ [Name p]) rest
  end.

(** ** Package aws (aws/main.go) *)

(** What [add] and [loginCmd] read from the operating system. *)
Record AwsOS := mkAwsOS {
  userCurrent : option string;        (* user.Current(): the user name, or an error *)
  lookPath : string → option string;  (* exec.LookPath *)
  filepathDir : string → string;      (* filepath.Dir *)
  nodeExtraCACerts : string           (* os.Getenv("NODE_EXTRA_CA_CERTS") *)
}.

(** [loginCmd]; [None] is the exit of [log.Fatal]. *)
Definition loginCmd (os : AwsOS) (name : string) (config : gmap string string)
  : option string :=
  match config !! "azure_tenant_id" with
  | None => Some ""
  | Some _ =>
      let tool := "aws-azure-login" in
      let toolCmd := tool +:+ " --no-prompt" in
      match lookPath os tool with
      | None => None
      | Some bin =>
          Some ("bash -c 'AWS_PROFILE=" +:+ name +:+ " PATH=" +:+ filepathDir os bin
                +:+ " NODE_EXTRA_CA_CERTS=" +:+ nodeExtraCACerts os +:+ " "
                +:+ toolCmd +:+ " || sleep 60'")
      end
  end.

(** Modelled from the spec: [iterm.Profiles.Add] is not among the
    sources; it appends the profile to the collection. *)
Definition Add (p : list Profile) (profile : Profile) : list Profile :=
  p ++ [profile].

(** [add]: the profile of one section of the AWS configuration and,
    for a section without [source_profile], its login profile. *)
Definition add (os : AwsOS) (p : list Profile) (name : string)
    (config : gmap string string) : option (list Profile) :=
  match userCurrent os with
  | None => None
  | Some username =>
      let config := <[ "Command" :=
        "/usr/bin/env AWS_PROFILE=" +:+ name +:+ " /usr/bin/login -fp " +:+ username ]>
        config in
      let p := Add p (NewProfile name config) in
      match config !! "source_profile" with
      | Some _ => Some p
      | None =>
          match loginCmd os name config with
          | None => None
          | Some cmd =>
              let config := <[ "Command" := cmd ]> config in
              Some (Add p (NewProfile ("login-" +:+ name) config))
          end
      end
  end.

(** [Regions]. *)
Definition Regions : list string :=
  [ "us-east-2"; "us-east-1"; "us-west-1"; "us-west-2"; "af-south-1";
    "ap-east-1"; "ap-south-1"; "ap-northeast-3"; "ap-northeast-2";
    "ap-southeast-1"; "ap-southeast-2"; "ap-northeast-1"; "ca-central-1";
    "cn-north-1"; "cn-northwest-1"; "eu-central-1"; "eu-west-1";
    "eu-west-2"; "eu-south-1"; "eu-west-3"; "eu-north-1"; "me-south-1";
    "sa-east-1" ].

(** ** Hierarchy derivation (package iterm) and its consumer (cmd.go) *)

(** The source label of a child profile: the [source_profile] setting
    of the configuration section it was built from. *)
Definition sourceLabel (p : Profile) : option string :=
  Config p !! "source_profile".

(** Modelled from the spec: [iterm.Profiles.ProfileTree] is not among
    the sources.  Every profile that needs a parent is grouped, in
    collection order, under its source label. *)
Definition ProfileTree (prof : list Profile) : gmap string (list string) :=
  foldl (λ (tree : gmap string (list string)) p,
           match sourceLabel p with
           | Some source =>
               <[ source := (default [] (tree !! source) ++ [Name p])%list ]> tree
           | None => tree
           end) ∅ prof.

(** Modelled from the spec: [iterm.Profiles.FindGUID] is not among the
    sources.  The first profile with the given identity key. *)
Fixpoint FindGUID (prof : list Profile) (guid : string) : option Profile :=
  match prof with
  | [] => None
  | p :: rest => if decide (GUID p = guid) then Some p else FindGUID rest guid
  end.

(** [strings.Contains]. *)
Fixpoint strContains (sub s : string) : bool :=
  String.prefix sub s ||
  match s with
  | EmptyString => false
  | String _ rest => strContains sub rest
  end.

(** [strings.Replace(s, old, new, -1)] for a non-empty [old]: [skip]
    counts the bytes of a match that are still to be dropped. *)
Fixpoint replaceFrom (old new : string) (skip : nat) (s : string) : string :=
  match s with
  | EmptyString => EmptyString
  | String c rest =>
      match skip with
      | S k => replaceFrom old new k rest
      | O =>
          if String.prefix old s
          then new +:+ replaceFrom old new (String.length old - 1) rest
          else String c (replaceFrom old new 0 rest)
      end
  end.

Definition strReplaceAll (s old new : string) : string :=
  replaceFrom old new 0 s.

(** The result of a function that may panic. *)
Inductive Result (A : Type) : Type :=
| Ok (value : A)
| Panicked (value : string).
Arguments Ok {A} value.
Arguments Panicked {A} value.

Section Commands.
(** [text/template]: parsing a text fails ([None]) or gives the
    function from the data ([.Profile], [.Region] when given) to the
    text written to the buffer. *)
Variable templateParse : string → option (string → option string → string).

(** [generateTemplate]. *)
Definition generateTemplate (command profile : string) : Result string :=
  match templateParse command with
  | None => Panicked "template"
  | Some t =>
      if strContains "{{ .Region }}" command
      then Ok (String.concat "" (map (λ region, t profile (Some region)) Regions))
      else Ok (t profile None)
  end.

(** The inner loop of [generateCommands] over the children of one
    source; [login] is the flag of the same name. *)
Fixpoint commandsOfChildren (prof : list Profile) (command source : string)
    (login : bool) (ret : list string) (profiles : list string)
  : Result (list string) :=
  match profiles with
  | [] => Ok ret
  | profile :: rest =>
      let afterLogin :=
        if login then Ok ret
        else
          let loginGUID := "login-" +:+ source in
          match FindGUID prof loginGUID with
          | None => Panicked loginGUID
          | Some iProfile =>
              Ok (ret ++ [strReplaceAll (Command iProfile) " || sleep 60'" "'"])%list
          end in
      match afterLogin with
      | Panicked v => Panicked v
      | Ok ret =>
          let tCommand := "AWS_PROFILE={{ .Profile }} " +:+ command in
          match generateTemplate tCommand profile with
          | Panicked v => Panicked v
          | Ok str => commandsOfChildren prof command source true (ret ++ [str])%list rest
          end
      end
  end.

(** The outer loop of [generateCommands], over the entries of the
    tree in the order the map iteration yields them. *)
Fixpoint commandsOfEntries (prof : list Profile) (command : string)
    (ret : list string) (entries : list (string * list string))
  : Result (list string) :=
  match entries with
  | [] => Ok ret
  | (source, profiles) :: rest =>
      match commandsOfChildren prof command source false ret profiles with
      | Panicked v => Panicked v
      | Ok ret => commandsOfEntries prof command ret rest
      end
  end.

(** [generateCommands]: Go leaves the iteration order of a map
    unspecified, so the function is a relation between the collection
    and its possible results, one for every order of the entries. *)
Definition generateCommands (prof : list Profile) (command : string)
    (result : Result (list string)) : Prop :=
  ∃ entries, entries ≡ₚ map_to_list (ProfileTree prof) ∧
             commandsOfEntries prof command [] entries = result.
End Commands.

(** ** Package keychain (keychain.go) *)

Record KeyChain := mkKeyChain {
  Service : string;
  AccessGroup : string
}.

(** [KeyChain.Profiles] over the accounts that [List] returned. *)
Definition keychainProfiles (k : KeyChain) (accounts : list string) : list Profile :=
  map (λ account,
         let prof := NewProfile ("custom/" +:+ account) ∅ in
         {| Name := Name prof; GUID := GUID prof; Command := Command prof;
            Config := Config prof;
            KeyboardMaps :=
              <[ "0x61-0x80000" :=
                 {| Action := 12;
                    Text := "eval $(/usr/bin/security find-generic-password  -s "
                            +:+ Service k +:+ " -w -a " +:+ account +:+ ")" |} ]>
              (KeyboardMaps prof);
            Triggers := Triggers prof |})
      accounts.

(** ** Package ssm: discovery (ssm/main.go) *)

(** What an SDK call returns: the output pointer ([None] is [nil]) and
    the error ([None] is [nil]). *)
Record Reply (A : Type) := mkReply {
  output : option A;
  err : option string
}.
Arguments mkReply {A} output err.
Arguments output {A} r.
Arguments err {A} r.

Record Tag := mkTag { Key : string; Value : string }.

(** What the remote API answers under one credential scope.  The
    instances of [describeInstances] are the tag lists of
    [Reservations[i].Instances[j]]. *)
Record Scope := mkScope {
  scopeProfile : string;
  scopeRegion : string;
  loadDefaultConfig : option string;               (* the error, if any *)
  getCallerIdentity : Reply string;                (* the Account *)
  listAccountAliases : Reply (list string);        (* AccountAliases *)
  describeInstanceInformation : Reply (list string); (* the InstanceId's *)
  describeInstances : string → Reply (list (list (list Tag)))
}.

(** [ec2Instance.Reservations[0].Instances[0].Tags]: a nil pointer or
    an index out of range is a run-time panic. *)
Definition firstInstanceTags (r : Reply (list (list (list Tag)))) : Result (list Tag) :=
  match output r with
  | None => Panicked "invalid memory address or nil pointer dereference"
  | Some [] => Panicked "index out of range [0] with length 0"
  | Some ([] :: _) => Panicked "index out of range [0] with length 0"
  | Some ((tags :: _) :: _) => Ok tags
  end.

(** The loop over the tags: the value of the last [Name] tag. *)
Definition nameOfTags (tags : list Tag) : string :=
  foldl (λ name tag, if decide (Key tag = "Name") then Value tag else name) "" tags.

(** What the steps before the loop fix for one scope. *)
Record Account := mkAccount {
  accountAlias : string;
  accountID : string
}.

(** The profile of one instance. *)
Definition instanceProfile (s : Scope) (a : Account) (name : string) : Profile :=
  let config : gmap string string :=
    <[ "Initial Text" := "bash -c 'AWS_PROFILE=" +:+ scopeProfile s +:+ " ssm " +:+ name +:+ "'" ]>
    (<[ "Custom Command" := "No" ]>
    (<[ "Tags" := "AWS, " +:+ accountAlias a +:+ ",account=" +:+ accountID a ]> ∅)) in
  NewProfile (accountAlias a +:+ ":" +:+ scopeRegion s +:+ ":ssm-" +:+ name) config.

(** The first half of the loop body: the membership test
    [_, found := instanceIDs[*instance.InstanceId]]. *)
Definition instanceFound (instanceIDs : gmap string string) (id : string) : bool :=
  bool_decide (is_Some (instanceIDs !! id)).

(** The second half of the loop body: the name, the profile and the
    entry written to the accumulator. *)
Definition emitInstance (s : Scope) (a : Account) (id : string)
  : Result (Profile * string) :=
  match firstInstanceTags (describeInstances s id) with
  | Panicked v => Panicked v
  | Ok tags => let name := nameOfTags tags in Ok (instanceProfile s a name, name)
  end.

(** [for _, instance := range instances.InstanceInformationList]. *)
Fixpoint instanceLoop (s : Scope) (a : Account) (ret : list Profile)
    (instanceIDs : gmap string string) (todo : list string)
  : Result (list Profile * gmap string string) :=
  match todo with
  | [] => Ok (ret, instanceIDs)
  | id :: rest =>
      if instanceFound instanceIDs id
      then instanceLoop s a ret instanceIDs rest
      else match emitInstance s a id with
           | Panicked v => Panicked v
           | Ok (profile, name) =>
               instanceLoop s a (ret ++ [profile]) (<[ id := name ]> instanceIDs) rest
           end
  end.

(** The steps of [generateForProfile] before the loop: [Ok None] is an
    early [return nil, instanceIDs], [Ok (Some (a, ids))] reaches the
    loop with the account and the instances to visit. *)
Definition beforeLoop (s : Scope) : Result (option (Account * list string)) :=
  match loadDefaultConfig s with
  | Some _ => Ok None
  | None =>
      match err (getCallerIdentity s), output (getCallerIdentity s) with
      | Some _, _ | _, None => Ok None
      | None, Some account =>
          (* the error of ListAccountAliases is logged and the code goes on *)
          match output (listAccountAliases s) with
          | None => Panicked "invalid memory address or nil pointer dereference"
          | Some aliases =>
              let alias := match aliases with
                           | [] => account
                           | first :: _ => first
                           end in
              match err (describeInstanceInformation s),
                    output (describeInstanceInformation s) with
              | Some _, _ => Ok None
              | None, None => Panicked "invalid memory address or nil pointer dereference"
              | None, Some ids => Ok (Some (mkAccount alias account, ids))
              end
          end
      end
  end.

(** [generateForProfile], for the scope of [profile] and [region]. *)
Definition generateForProfile (s : Scope) (instanceIDs : gmap string string)
  : Result (list Profile * gmap string string) :=
  match beforeLoop s with
  | Panicked v => Panicked v
  | Ok None => Ok ([], instanceIDs)
  | Ok (Some (a, ids)) => instanceLoop s a [] instanceIDs ids
  end.

(** *** The fan-out of [Generate]

    One goroutine per scope runs [generateForProfile] on the shared map
    [instances] and takes [lock] only after it has returned.  A worker
    therefore reads and writes the map in separate steps that the
    scheduler may interleave with the steps of the other workers. *)

Inductive Pc :=
| AtLoop (todo : list string)               (* at the head of the loop *)
| AtEmit (id : string) (todo : list string) (* [id] was not found; its profile is not built yet *)
| AtReturn                                  (* returned; about to take the lock *)
| Finished                                  (* [wg.Done] *)
| Crashed (v : string).                     (* a panic *)

Record Worker := mkWorker {
  wScope : Scope;
  wAccount : Account;
  wRet : list Profile;    (* [ret] of [generateForProfile] *)
  wPc : Pc
}.

Record Fanout := mkFanout {
  instances : gmap string string;  (* the shared accumulator *)
  ret : list Profile;              (* [ret] of [Generate] *)
  workers : list Worker
}.

(** A goroutine up to the head of its loop: these steps make remote
    calls only. *)
Definition spawn (s : Scope) : Worker :=
  match beforeLoop s with
  | Panicked v => mkWorker s (mkAccount "" "") [] (Crashed v)
  | Ok None => mkWorker s (mkAccount "" "") [] AtReturn
  | Ok (Some (a, ids)) => mkWorker s a [] (AtLoop ids)
  end.

Definition crashed (w : Worker) : bool :=
  match wPc w with Crashed _ => true | _ => false end.

Definition finished (w : Worker) : bool :=
  match wPc w with Finished => true | _ => false end.

(** One step of one worker on the shared state: the worker after the
    step, the accumulator and the result list. *)
Definition stepWorker (w : Worker) (ids : gmap string string) (out : list Profile)
  : Worker * gmap string string * list Profile :=
  match wPc w with
  | AtLoop [] => (mkWorker (wScope w) (wAccount w) (wRet w) AtReturn, ids, out)
  | AtLoop (id :: todo) =>
      if instanceFound ids id
      then (mkWorker (wScope w) (wAccount w) (wRet w) (AtLoop todo), ids, out)
      else (mkWorker (wScope w) (wAccount w) (wRet w) (AtEmit id todo), ids, out)
  | AtEmit id todo =>
      match emitInstance (wScope w) (wAccount w) id with
      | Panicked v => (mkWorker (wScope w) (wAccount w) (wRet w) (Crashed v), ids, out)
      | Ok (profile, name) =>
          (mkWorker (wScope w) (wAccount w) (wRet w ++ [profile]) (AtLoop todo),
           <[ id := name ]> ids, out)
      end
  | AtReturn =>
      (* under the lock: [profileInstances] is the map [instances] itself,
         so copying its entries into [instances] changes nothing *)
      (mkWorker (wScope w) (wAccount w) (wRet w) Finished,
       map_fold (λ k v acc, <[ k := v ]> acc) ids ids, out ++ wRet w)
  | Finished => (w, ids, out)
  | Crashed _ => (w, ids, out)
  end.

(** The scheduler runs worker [i] for one step.  A panic in any
    goroutine ends the process: nothing steps after it. *)
Definition step (st : Fanout) (i : nat) : Fanout :=
  if existsb crashed (workers st) then st
  else match workers st !! i with
       | None => st
       | Some w =>
           let '(w', ids, out) := stepWorker w (instances st) (ret st) in
           mkFanout ids out (<[ i := w' ]> (workers st))
       end.

(** The steps a worker still has to take. *)
Definition remaining (w : Worker) : nat :=
  match wPc w with
  | AtLoop todo => 2 * length todo + 2
  | AtEmit _ todo => 2 * length todo + 3
  | AtReturn => 1
  | Finished => 0
  | Crashed _ => 0
  end.

(** Worker [i] runs until it is done. *)
Definition runToEnd (st : Fanout) (i : nat) : Fanout :=
  match workers st !! i with
  | None => st
  | Some w => Nat.iter (remaining w) (λ st, step st i) st
  end.

(** [Generate] for the scopes of the configuration, under a schedule:
    the interleaving [schedule] first, then every worker runs to its
    end ([wg.Wait] returns when all are done). *)
Definition fanout (scopes : list Scope) (schedule : list nat) : Fanout :=
  let st := foldl step (mkFanout ∅ [] (map spawn scopes)) schedule in
  foldl runToEnd st (seq 0 (length scopes)).

Definition fanoutResult (st : Fanout) : Result (list Profile) :=
  match find crashed (workers st) with
  | Some w => match wPc w with Crashed v => Panicked v | _ => Ok (ret st) end
  | None => Ok (ret st)
  end.

(** [Generate]; [scopes] is [None] when the configuration cannot be
    parsed, and then the result is [nil]. *)
Definition Generate (scopes : option (list Scope)) (schedule : list nat)
  : Result (list Profile) :=
  match scopes with
  | None => Ok []
  | Some scopes => fanoutResult (fanout scopes schedule)
  end.

(** ** Package cmd: reconciliation (generate.go) *)

(** [GUID i < GUID j], the [less] function of both calls of [sort.Slice]. *)
Definition lessGUID (a b : Profile) : bool := String.ltb (GUID a) (GUID b).

(** The inner loop of the insertion sort of package [sort]: the new
    element is swapped towards the front while it is less than its
    left neighbour.  [before] lists the elements to its left, nearest
    first, and so does the result. *)
Fixpoint sink (x : Profile) (before : list Profile) : list Profile :=
  match before with
  | [] => [x]
  | y :: rest => if lessGUID x y then y :: sink x rest else x :: y :: rest
  end.

(** [sort.Slice(profiles, less)] as the insertion sort that package
    [sort] runs on a slice of at most twelve elements.  On a longer
    slice the package sorts by another method; its result is a sorted
    permutation as well, and [sorted_permutation_unique] below shows that
    it is this one whenever the identity keys are distinct. *)
Definition sortSlice (profiles : list Profile) : list Profile :=
  reverse (foldl (λ before x, sink x before) [] profiles).

(** The flags of the command. *)
Record Flags := mkFlags {
  write : bool;
  diff : bool;
  dryRun : bool;
  ignoreInstances : bool
}.

(** The three modes of reconciliation. *)
Inductive Mode := PersistMode | ReportDiffMode | PrintMode.

#[global] Instance Mode_eq_dec : EqDecision Mode.
Proof. solve_decision. Defined.

(** What a run does to the outside, in order. *)
Inductive Event :=
| Fatal (msg : string)                      (* [log.Fatal]: the process exits *)
| Panic (v : string)                        (* a panic of a goroutine *)
| WarnLog (msg detail : string)
| InfoLog (msg : string)
| Consulted (source : string)               (* a source collaborator was called *)
| CacheStored (profiles : list Profile)
| CacheLoaded
| OutputWritten (profiles : list Profile)   (* [ioutil.WriteFile(output, profJSON)] *)
| OutputRead                                (* [ioutil.ReadFile(output)] *)
| DiffPrinted (current new : list Profile)  (* [fmt.Println("Updating ...", diff)] *)
| JSONPrinted (profiles : list Profile).    (* [fmt.Println(string(profJSON))] *)

(** A run: the events so far and the value, [None] once the process
    has exited. *)
Definition Run (A : Type) : Type := list Event * option A.

#[global] Instance Run_ret : MRet Run := λ A a, ([], Some a).

#[global] Instance Run_bind : MBind Run := λ A B k m,
  match m with
  | (t, None) => (t, None)
  | (t, Some a) => let '(t', b) := k a in (t ++ t', b)
  end.

Definition emit (e : Event) : Run unit := ([e], Some tt).
Definition exit_ {A} (e : Event) : Run A := ([e], None).

(** The collaborators of one run: the source packages that are not
    modelled here, the file system and the two augmentation passes. *)
Record World := mkWorld {
  awsProfiles : list Profile;             (* [aws.Profiles("", AWSConfig)] *)
  k8sProfiles : bool → list Profile;      (* [k8s.Profiles(kubeConfig, dryRun)] *)
  keychainAccounts : option (list string); (* [keyChain.List()], or its failure *)
  vimProfile : Profile;                   (* [vim.Profile()] *)
  sshProfiles : list Profile;             (* [ssh.Profiles()] *)
  configProfiles : list Profile;          (* [config.Generate()] *)
  ssmScopes : option (list Scope);        (* the scopes of [~/.aws/config] *)
  ssmSchedule : list nat;                 (* the interleaving of the goroutines *)
  ssmMarshal : bool;                      (* [json.MarshalIndent(ssmProfs)] succeeds *)
  cacheFile : bool;                       (* [xdg.CacheFile] succeeds *)
  cacheWrite : bool;                      (* writing the cache succeeds *)
  cacheRead : option (option (list Profile));
    (* reading the cache: [None] unreadable, [Some None] not a list of profiles *)
  vaultProfile : option Profile;          (* [vault.Profile()], or its error *)
  keyboardMapsFor : list Profile → Profile → gmap string KeyboardMap;
  triggersFor : list Profile → Profile → list Trigger;
  marshal : bool;                         (* [json.MarshalIndent(prof)] succeeds *)
  writeFile : bool;                       (* [ioutil.WriteFile(output)] succeeds *)
  readOutput : option (option (list Profile))
    (* reading [output]: [None] unreadable, [Some None] not a collection *)
}.

Definition DefaultProfile : string := "default-profile".

Definition keyChain : KeyChain := {| Service := "germ"; AccessGroup := "germ" |}.

(** The built-in profile of the command. *)
Definition defaultProfile : Profile :=
  NewProfile DefaultProfile
    (<[ "AllowTitleSetting" := "true" ]> (<[ "BadgeText" := "" ]> ∅)).

(** Modelled from the spec: [UpdateKeyboardMaps] is not among the
    sources.  The input-chord pass rewrites the keyboard bindings of
    every profile, with the whole collection in view. *)
Definition UpdateKeyboardMaps (w : World) (prof : list Profile) : list Profile :=
  map (λ p, {| Name := Name p; GUID := GUID p; Command := Command p;
               Config := Config p;
               KeyboardMaps := keyboardMapsFor w prof p;
               Triggers := Triggers p |}) prof.

(** Modelled from the spec: [UpdateAWSSmartSelectionRules] is not among
    the sources.  The automation pass rewrites the automation rules of
    every profile, with the whole collection in view. *)
Definition UpdateAWSSmartSelectionRules (w : World) (prof : list Profile)
  : list Profile :=
  map (λ p, {| Name := Name p; GUID := GUID p; Command := Command p;
               Config := Config p;
               KeyboardMaps := KeyboardMaps p;
               Triggers := triggersFor w prof p |}) prof.

(** [storeToCache]. *)
Definition storeToCache (w : World) (profiles : list Profile) : Run unit :=
  if negb (cacheFile w) then exit_ (Fatal "cannot get cache file")
  else if negb (cacheWrite w) then exit_ (Fatal "cannot write to file")
  else emit (CacheStored profiles).

(** [loadFromCache] followed by [json.Unmarshal]. *)
Definition loadFromCache (w : World) : Run (list Profile) :=
  if negb (cacheFile w) then exit_ (Fatal "cannot get cache file")
  else match cacheRead w with
       | None => exit_ (Fatal "cannot read from file")
       | Some None => emit CacheLoaded ;; exit_ (Fatal "cannot unmarshal ssm profiles")
       | Some (Some ssmProfs) =>
           emit CacheLoaded ;; emit (InfoLog "using cached ssm profiles") ;;
           mret ssmProfs
       end.

(** The instance profiles: live discovery or the cache. *)
Definition ssmSource (f : Flags) (w : World) : Run (list Profile) :=
  if negb (ignoreInstances f) then
    emit (Consulted "ssm") ;;
    match Generate (ssmScopes w) (ssmSchedule w) with
    | Panicked v => exit_ (Panic v)
    | Ok ssmProfs =>
        if negb (ssmMarshal w) then exit_ (Fatal "cannot marshal ssm profiles")
        else storeToCache w ssmProfs ;; mret ssmProfs
    end
  else loadFromCache w.

(** The candidates, in the order of the [append] calls. *)
Definition gather (f : Flags) (w : World) : Run (list Profile) :=
  emit (Consulted "aws") ;;
  emit (Consulted "k8s") ;;
  emit (Consulted "keychain") ;;
  match keychainAccounts w with
  | None => exit_ (Fatal "Cannot retrieve the accounts")
  | Some accounts =>
      let prof :=
        awsProfiles w ++ k8sProfiles w (dryRun f) ++ keychainProfiles keyChain accounts
        ++ [defaultProfile] in
      emit (Consulted "vim") ;;
      emit (Consulted "ssh") ;;
      emit (Consulted "config") ;;
      let prof := prof ++ [vimProfile w] ++ sshProfiles w ++ configProfiles w in
      ssmProfs ← ssmSource f w;
      let prof := prof ++ ssmProfs in
      emit (Consulted "vault") ;;
      match vaultProfile w with
      | None => emit (WarnLog "cannot add vault profile" "") ;; mret prof
      | Some v => mret (prof ++ [v])
      end
  end.

(** The records that the merge loop writes to the log. *)
Definition mergeWarnings (st : MergeState) : list Event :=
  map (λ w, WarnLog (warnMsg w) (warnName w)) (mergeLog st).

(** The three branches at the end of the command. *)
Definition reconcile (f : Flags) (w : World) (prof : list Profile) : Run unit :=
  if write f then
    emit (OutputWritten prof) ;;
    if writeFile w then mret tt else exit_ (Fatal "cannot write to file")
  else if diff f then
    match readOutput w with
    | None => emit OutputRead ;; exit_ (Fatal "cannot read file")
    | Some None => emit OutputRead ;; exit_ (Fatal "cannot unmarshal output file")
    | Some (Some current) =>
        emit OutputRead ;;
        let current := sortSlice current in
        let prof := sortSlice prof in
        if decide (current = prof) then mret tt
        else emit (DiffPrinted current prof)
    end
  else emit (JSONPrinted prof).

(** The [Run] function of [generateCmd]. *)
Definition generateCmd (f : Flags) (w : World) : Run unit :=
  if write f && dryRun f then exit_ (Fatal "--write is incompatible with --dry-run")
  else if write f && diff f then exit_ (Fatal "--write and --diff are incompatible")
  else
    prof ← gather f w;
    let prof := UpdateAWSSmartSelectionRules w (UpdateKeyboardMaps w prof) in
    let uniq := merge prof in
    ((mergeWarnings uniq, Some tt) : Run unit) ;;
    let prof := uniqProf uniq in
    if negb (marshal w) then exit_ (Fatal "cannot indent json")
    else reconcile f w prof.

(** The mode that an event belongs to. *)
Definition modeOf (e : Event) : option Mode :=
  match e with
  | OutputWritten _ => Some PersistMode
  | OutputRead => Some ReportDiffMode
  | JSONPrinted _ => Some PrintMode
  | _ => None
  end.

(** The modes that a run executed. *)
Definition modesRun (trace : list Event) : list Mode :=
  omap modeOf trace.

(** The mode that the flags select. *)
Definition selectedMode (f : Flags) : Mode :=
  if write f then PersistMode else if diff f then ReportDiffMode else PrintMode.

(** The collection that an event hands to the outside. *)
Definition collectionOf (e : Event) : option (list Profile) :=
  match e with
  | OutputWritten c => Some c
  | DiffPrinted _ c => Some c
  | JSONPrinted c => Some c
  | _ => None
  end.

(** ** Sample inputs *)

(** Two scopes that see the same instance [i-123], named [web], in the
    same account. *)
Definition webReservations : list (list (list Tag)) :=
  [ [ [ mkTag "Name" "web" ] ] ].

Definition scopeSeeingWeb (profile : string) : Scope :=
  {| scopeProfile := profile;
     scopeRegion := "eu-west-1";
     loadDefaultConfig := None;
     getCallerIdentity := mkReply (Some "123456789012") None;
     listAccountAliases := mkReply (Some ["alias"]) None;
     describeInstanceInformation := mkReply (Some ["i-123"]) None;
     describeInstances := λ _, mkReply (Some webReservations) None |}.

Definition webAccount : Account :=
  {| accountAlias := "alias"; accountID := "123456789012" |}.

(** A scope whose alias cannot be resolved: the SDK returns a nil
    output together with the error. *)
Definition scopeWithoutAlias : Scope :=
  {| scopeProfile := "p1";
     scopeRegion := "eu-west-1";
     loadDefaultConfig := None;
     getCallerIdentity := mkReply (Some "123456789012") None;
     listAccountAliases := mkReply None (Some "AccessDenied");
     describeInstanceInformation := mkReply (Some ["i-123"]) None;
     describeInstances := λ _, mkReply (Some webReservations) None |}.

(** A child profile whose parent is not in the collection. *)
Definition orphan : Profile :=
  NewProfile "-dev" (<[ "source_profile" := "main" ]> ∅).

(** Two profiles with different names and the same identity key. *)
Definition twinA : Profile :=
  {| Name := "a"; GUID := "g"; Command := ""; Config := ∅;
     KeyboardMaps := ∅; Triggers := [] |}.

Definition twinB : Profile :=
  {| Name := "b"; GUID := "g"; Command := ""; Config := ∅;
     KeyboardMaps := ∅; Triggers := [] |}.

(** A world in which no source yields a profile of its own and the
    output file holds [current]. *)
Definition quietWorld (current : list Profile) : World :=
  {| awsProfiles := [];
     k8sProfiles := λ _, [];
     keychainAccounts := Some [];
     vimProfile := NewProfile "vim" ∅;
     sshProfiles := [];
     configProfiles := [];
     ssmScopes := Some [];
     ssmSchedule := [];
     ssmMarshal := true;
     cacheFile := true;
     cacheWrite := true;
     cacheRead := Some (Some []);
     vaultProfile := None;
     keyboardMapsFor := λ _ p, KeyboardMaps p;
     triggersFor := λ _ p, Triggers p;
     marshal := true;
     writeFile := true;
     readOutput := Some (Some current) |}.

(** A world whose ssh source yields the two profiles with the same
    identity key, and whose output file holds the collection of an
    earlier run in another order. *)
Definition twinWorld : World :=
  {| awsProfiles := [];
     k8sProfiles := λ _, [];
     keychainAccounts := Some [];
     vimProfile := NewProfile "vim" ∅;
     sshProfiles := [twinB; twinA];
     configProfiles := [];
     ssmScopes := Some [];
     ssmSchedule := [];
     ssmMarshal := true;
     cacheFile := true;
     cacheWrite := true;
     cacheRead := Some (Some []);
     vaultProfile := None;
     keyboardMapsFor := λ _ p, KeyboardMaps p;
     triggersFor := λ _ p, Triggers p;
     marshal := true;
     writeFile := true;
     readOutput := Some (Some [defaultProfile; NewProfile "vim" ∅; twinA; twinB]) |}.

Definition diffFlags : Flags :=
  {| write := false; diff := true; dryRun := false; ignoreInstances := false |}.

Definition printFlags : Flags :=
  {| write := false; diff := false; dryRun := false; ignoreInstances := false |}.

(** ** Notions used by the properties *)

(** The children of a source label: the names of the profiles that
    carry the label, in collection order. *)
Definition childrenOf (source : string) (prof : list Profile) : list string :=
  Name <$> filter (λ p, sourceLabel p = Some source) prof.


(** An event of the gathering phase: neither a mode of reconciliation
    nor a collection handed to the outside. *)
Definition quietEvent (e : Event) : Prop :=
  modeOf e = None ∧ collectionOf e = None.

Definition quiet {A} (m : Run A) : Prop := Forall quietEvent (fst m).

(** ** Further functions of the sources *)

(** The two replacements that [generateCmd] applies to the text of
    [json.MarshalIndent] before it writes or prints it. *)
Definition escapedAmpersand : string := "\u0026".
Definition escapedGreater : string := "\u003e".

Definition unescape (profJSON : string) : string :=
  let profJSON := strReplaceAll profJSON escapedAmpersand "&" in
  strReplaceAll profJSON escapedGreater ">".

(** Whether a byte occurs in a string. *)
Fixpoint hasChar (c : ascii) (s : string) : bool :=
  match s with
  | EmptyString => false
  | String x rest => bool_decide (x = c) || hasChar c rest
  end.

(** *** What [generateCommands] emits for one entry of the tree *)

Section Blocks.
Variable templateParse : string → option (string → option string → string).

(** An entry that the loops get through: it has no children, or its
    parent is in the collection and the template parses. *)
Definition entryOk (prof : list Profile) (command : string)
    (entry : string * list string) : Prop :=
  entry.2 = [] ∨
  (is_Some (FindGUID prof ("login-" +:+ entry.1)) ∧
   is_Some (templateParse ("AWS_PROFILE={{ .Profile }} " +:+ command))).

(** The commands of one entry: the login command of the parent, then
    one command for every child. *)
Definition blockOf (prof : list Profile) (command : string)
    (entry : string * list string) : list string :=
  match entry.2 with
  | [] => []
  | children =>
      let tCommand := "AWS_PROFILE={{ .Profile }} " +:+ command in
      match FindGUID prof ("login-" +:+ entry.1), templateParse tCommand with
      | Some iProfile, Some t =>
          strReplaceAll (Command iProfile) " || sleep 60'" "'"
          :: map (λ child,
                    if strContains "{{ .Region }}" tCommand
                    then String.concat "" (map (λ region, t child (Some region)) Regions)
                    else t child None) children
      | _, _ => []
      end
  end.
End Blocks.

(** A collection with a parent, its login profile and one child. *)
Definition family : list Profile :=
  [ NewProfile "main" ∅;
    NewProfile "login-main" (<[ "Command" := "bash -c 'login || sleep 60'" ]> ∅);
    orphan ].

(** [generateForProfile] for the scopes one after another, each on the
    accumulator that the scopes before it have filled. *)
Definition oneAfterAnother (scopes : list Scope)
  : Result (list Profile * gmap string string) :=
  foldl (λ acc s,
           match acc with
           | Panicked v => Panicked v
           | Ok (profiles, ids) =>
               match generateForProfile s ids with
               | Panicked v => Panicked v
               | Ok (more, ids') => Ok (profiles ++ more, ids')
               end
           end) (Ok ([], ∅)) scopes.

(** No goroutine of the fan-out has panicked. *)
Definition noCrash (st : Fanout) : Prop := existsb crashed (workers st) = false.



Definition writeFlags : Flags :=
  {| write := true; diff := false; dryRun := false; ignoreInstances := false |}.

(** *** Package aws: [Profiles] *)

Fixpoint strDrop (n : nat) (s : string) : string :=
  match n, s with
  | O, _ => s
  | S k, String _ rest => strDrop k rest
  | S _, EmptyString => EmptyString
  end.

(** [strings.TrimPrefix]. *)
Definition strTrimPrefix (s prefix : string) : string :=
  if String.prefix prefix s then strDrop (String.length prefix) s else s.

(** [Profiles(prefix, config)].  [sections] is what [ini.GetAll()]
    yields, in the order of the iteration, or [None] when the file
    cannot be parsed; the result is [None] when [add] exits. *)
Definition Profiles (os : AwsOS) (prefix : string)
    (sections : option (list (string * gmap string string)))
  : option (list Profile) :=
  match sections with
  | None => Some []
  | Some sections =>
      foldl (λ prof '(name, section),
               match prof with
               | None => None
               | Some p =>
                   if decide (name = "") then Some p
                   else
                     let tName := prefix +:+ "-" +:+ strTrimPrefix name "profile " in
                     add os p tName section
               end) (Some []) sections
  end.

(** The names that one section contributes. *)
Definition sectionNames (prefix : string) (entry : string * gmap string string)
  : list string :=
  if decide (entry.1 = "") then []
  else
    let tName := prefix +:+ "-" +:+ strTrimPrefix entry.1 "profile " in
    match entry.2 !! "source_profile" with
    | Some _ => [tName]
    | None => [tName; "login-" +:+ tName]
    end.

(** A configuration with a parent, the unnamed section and a child. *)
Definition sampleSections : list (string * gmap string string) :=
  [ ("profile main", ∅); ("", ∅);
    ("profile dev", <[ "source_profile" := "main" ]> ∅) ].

(** *** Package cmd: the new command (new.go) *)

(** How a function of the command ends. *)
Inductive Exit (A : Type) : Type :=
| Returned (value : A)
| FatalExit (msg : string)   (* [log.Fatal]: the process exits *)
| PanicExit.                 (* an index out of range *)
Arguments Returned {A} value.
Arguments FatalExit {A} msg.
Arguments PanicExit {A}.

(** [records[i][j]]; [None] when an index is out of range. *)
Definition cell (records : list (list string)) (i j : nat) : option string :=
  match records !! i with
  | None => None
  | Some row => row !! j
  end.

(** [strings.HasSuffix]. *)
Fixpoint strHasSuffix (s suffix : string) : bool :=
  if decide (s = suffix) then true
  else match s with
       | EmptyString => false
       | String _ rest => strHasSuffix rest suffix
       end.

(** [exportAWS]. *)
Definition exportAWS (access secret : string) : string :=
  "export AWS_ACCESS_KEY_ID=" +:+ access +:+ " AWS_SECRET_ACCESS_KEY=" +:+ secret.

(** The two header checks of [handleFile] and the export of the second
    record, for the columns [c1] and [c2]. *)
Definition checkedExport (file : string) (records : list (list string))
    (c1 c2 : nat) : Exit string :=
  match cell records 0 c1 with
  | None => PanicExit
  | Some h1 =>
      if decide (h1 ≠ "Access key ID")
      then FatalExit "Invalid header for AWS creds file"
      else
        match cell records 0 c2 with
        | None => PanicExit
        | Some h2 =>
            if decide (h2 ≠ "Secret access key")
            then FatalExit "Invalid header for AWS creds file"
            else
              match cell records 1 c1, cell records 1 c2 with
              | Some access, Some secret => Returned (exportAWS access secret)
              | _, _ => PanicExit
              end
        end
  end.

Section NewCommand.
(** [filepath.Base]. *)
Variable filepathBase : string → string.
(** [slurpCsv]: the records of the file, or [None] when it cannot be
    read or parsed and the function exits. *)
Variable slurpCsv : string → option (list (list string)).

(** [handleFile]. *)
Definition handleFile (file : string) : Exit string :=
  let base := filepathBase file in
  if String.prefix "credentials" base && strHasSuffix file "csv" then
    match slurpCsv file with
    | None => FatalExit "Cannot read file"
    | Some records => checkedExport file records 2 3
    end
  else if String.prefix "accessKeys" base && strHasSuffix file "csv" then
    match slurpCsv file with
    | None => FatalExit "Cannot read file"
    | Some records => checkedExport file records 0 1
    end
  else FatalExit "Cannot handle this creds file".
End NewCommand.

(** A world whose AWS configuration yields one profile and whose ssh
    source yields another profile of the same name. *)
Definition awsWorld : World :=
  {| awsProfiles := [twinA];
     k8sProfiles := λ _, [];
     keychainAccounts := Some [];
     vimProfile := NewProfile "vim" ∅;
     sshProfiles := [NewProfile "a" ∅];
     configProfiles := [];
     ssmScopes := Some [];
     ssmSchedule := [];
     ssmMarshal := true;
     cacheFile := true;
     cacheWrite := true;
     cacheRead := Some (Some []);
     vaultProfile := None;
     keyboardMapsFor := λ _ p, KeyboardMaps p;
     triggersFor := λ _ p, Triggers p;
     marshal := true;
     writeFile := true;
     readOutput := Some (Some []) |}.

(** * Properties *)

(** ** Merge and dedup *)

Section MergeFacts.
Implicit Types (st : MergeState) (p : Profile) (l : list Profile).

Lemma filter_all (P : Profile → Prop) `{!∀ q, Decision (P q)} l :
  Forall P l → filter P l = l.
Proof.
  induction 1 as [|q l Hq _ IH]; [done|].
  by rewrite filter_cons_True, IH.
Qed.

Lemma merge_snoc l p : merge (l ++ [p]) = mergeStep (merge l) p.
Proof. unfold merge. by rewrite foldl_snoc. Qed.

Lemma existing_foldl st l :
  existingProfiles (foldl mergeStep st l)
  = list_to_set (Name <$> l) ∪ existingProfiles st.
Proof.
  revert st. induction l as [|p l IH]; intros st; simpl.
  - set_solver.
  - rewrite IH. unfold mergeStep. case_decide; simpl; set_solver.
Qed.

Lemma existing_merge l :
  existingProfiles (merge l) = list_to_set (Name <$> l).
Proof. unfold merge. rewrite existing_foldl. set_solver. Qed.

Lemma filter_filter_seen (ex : gset string) p l :
  Name p ∈ ex →
  filter (λ q, Name q ∉ ex) (filter (λ q, Name q ≠ Name p) l)
  = filter (λ q, Name q ∉ ex) l.
Proof.
  intros Hin. induction l as [|q l IH]; [done|].
  rewrite (filter_cons (λ q, Name q ≠ Name p)).
  destruct (decide (Name q ≠ Name p)) as [Hne|Heq].
  - rewrite !filter_cons. by rewrite IH.
  - rewrite IH, filter_cons. rewrite decide_False; [done|].
    intros Hq. apply dec_stable in Heq. apply Hq. by rewrite Heq.
Qed.

Lemma filter_filter_fresh (ex : gset string) p l :
  filter (λ q, Name q ∉ ex) (filter (λ q, Name q ≠ Name p) l)
  = filter (λ q, Name q ∉ {[ Name p ]} ∪ ex) l.
Proof.
  induction l as [|q l IH]; [done|].
  rewrite (filter_cons (λ q, Name q ≠ Name p)).
  rewrite (filter_cons (λ q, Name q ∉ {[ Name p ]} ∪ ex)).
  destruct (decide (Name q ≠ Name p)) as [Hne|Heq].
  - rewrite filter_cons, IH.
    destruct (decide (Name q ∉ ex)) as [Hq|Hq].
    + rewrite decide_True; [done|]. set_solver.
    + rewrite decide_False; [done|]. set_solver.
  - rewrite IH. rewrite decide_False; [done|].
    apply dec_stable in Heq. set_solver.
Qed.

Lemma uniq_foldl st l :
  uniqProf (foldl mergeStep st l)
  = uniqProf st ++ filter (λ q, Name q ∉ existingProfiles st) (firstOccurrences l).
Proof.
  revert st. induction l as [|p l IH]; intros st; simpl.
  - by rewrite app_nil_r.
  - rewrite IH. unfold mergeStep. rewrite filter_cons.
    case_decide as Hin; simpl.
    + rewrite decide_False by (intros Hn; by apply Hn).
      by rewrite filter_filter_seen.
    + rewrite decide_True by done.
      rewrite <- app_assoc. simpl. by rewrite filter_filter_fresh.
Qed.

Lemma log_foldl st seen l :
  (∀ n, n ∈ seen ↔ n ∈ existingProfiles st) →
  mergeLog (foldl mergeStep st l)
  = mergeLog st ++ map (mkWarning "duplicate profile") (duplicateNames seen l).
Proof.
  revert st seen. induction l as [|p l IH]; intros st seen Hseen; simpl.
  - by rewrite app_nil_r.
  - unfold mergeStep at 2.
    destruct (decide (Name p ∈ existingProfiles st)) as [Hin|Hin].
    + rewrite decide_True by (by apply Hseen).
      rewrite (IH _ seen) by done. simpl. by rewrite <- app_assoc.
    + rewrite decide_False by (by rewrite Hseen).
      rewrite (IH _ (seen ++ [Name p])); [done|].
      intros n. simpl. rewrite elem_of_app, Hseen. set_solver.
Qed.

Lemma firstOccurrences_names l p :
  p ∈ firstOccurrences l → p ∈ l.
Proof.
  revert p. induction l as [|q l IH]; intros p; simpl; [done|].
  rewrite !elem_of_cons, list_elem_of_filter. naive_solver.
Qed.

Lemma firstOccurrences_NoDup l : NoDup (Name <$> firstOccurrences l).
Proof.
  induction l as [|p l IH]; [constructor|].
  cbn [firstOccurrences]. rewrite fmap_cons. constructor.
  - rewrite list_elem_of_fmap. intros (q & Hq & Hin).
    apply list_elem_of_filter in Hin as [Hne _]. congruence.
  - revert IH. generalize (firstOccurrences l). intros u.
    induction u as [|q u IHu]; [done|].
    rewrite filter_cons, fmap_cons, NoDup_cons. intros [Hq Hu].
    case_decide; [|by auto].
    rewrite fmap_cons. constructor; [|by auto].
    rewrite list_elem_of_fmap in Hq |- *. intros (r & Hr & Hin).
    apply list_elem_of_filter in Hin as [_ Hin]. naive_solver.
Qed.

(** A collection without repeated names is its own list of first
    occurrences and has no candidate with a name seen before. *)
Lemma firstOccurrences_id l :
  NoDup (Name <$> l) → firstOccurrences l = l.
Proof.
  induction l as [|p l IH]; [done|].
  cbn [firstOccurrences]. rewrite fmap_cons, NoDup_cons. intros [Hp Hl].
  rewrite IH by done. f_equal.
  apply filter_all, Forall_forall. intros q Hq Heq.
  apply Hp. rewrite <- Heq. by apply list_elem_of_fmap_2.
Qed.

Lemma duplicateNames_nil seen l :
  NoDup (seen ++ (Name <$> l)) → duplicateNames seen l = [].
Proof.
  revert seen. induction l as [|p l IH]; intros seen; [done|].
  cbn [duplicateNames]. rewrite fmap_cons. intros Hnd.
  apply NoDup_app in Hnd as Hnd'. destruct Hnd' as (_ & Hdisj & _).
  rewrite decide_False.
  - apply IH. by rewrite <- app_assoc.
  - intros Hin. apply (Hdisj _ Hin). by left.
Qed.
End MergeFacts.

Lemma merge_uniq (l : list Profile) : uniqProf (merge l) = firstOccurrences l.
Proof.
  unfold merge. rewrite uniq_foldl. simpl.
  apply filter_all, Forall_forall. set_solver.
Qed.

Lemma merge_log (l : list Profile) :
  mergeLog (merge l) = map (mkWarning "duplicate profile") (duplicateNames [] l).
Proof. unfold merge. rewrite (log_foldl _ []); [done|]. set_solver. Qed.

Lemma merge_NoDup (l : list Profile) : NoDup (Name <$> uniqProf (merge l)).
Proof. rewrite merge_uniq. apply firstOccurrences_NoDup. Qed.

(** C1. The merge loop keeps exactly the first occurrence of every
    name, in first-seen order; a candidate whose name occurred before
    is dropped with one warning that carries the name, and the loop
    goes on; no two profiles of the result have the same name. *)
Theorem merge_keeps_first_occurrences (candidates : list Profile) :
  uniqProf (merge candidates) = firstOccurrences candidates ∧
  mergeLog (merge candidates)
    = map (mkWarning "duplicate profile") (duplicateNames [] candidates) ∧
  NoDup (Name <$> uniqProf (merge candidates)) ∧
  (∀ before p,
     Name p ∈ (Name <$> before) →
     uniqProf (merge (before ++ [p])) = uniqProf (merge before) ∧
     mergeLog (merge (before ++ [p]))
       = mergeLog (merge before) ++ [mkWarning "duplicate profile" (Name p)]) ∧
  (∀ before p,
     Name p ∉ (Name <$> before) →
     uniqProf (merge (before ++ [p])) = uniqProf (merge before) ++ [p] ∧
     mergeLog (merge (before ++ [p])) = mergeLog (merge before)).
Proof.
  split_and!.
  - apply merge_uniq.
  - apply merge_log.
  - apply merge_NoDup.
  - intros before p Hin. rewrite merge_snoc. unfold mergeStep.
    rewrite decide_True; [done|]. rewrite existing_merge. set_solver.
  - intros before p Hin. rewrite merge_snoc. unfold mergeStep.
    rewrite decide_False; [done|]. rewrite existing_merge. set_solver.
Qed.

(** C8. Merging the result of a merge gives the same collection, in
    the same order, and records no warning. *)
Theorem merge_idempotent (candidates : list Profile) :
  uniqProf (merge (uniqProf (merge candidates))) = uniqProf (merge candidates) ∧
  mergeLog (merge (uniqProf (merge candidates))) = [].
Proof.
  pose proof (merge_NoDup candidates) as Hnd.
  revert Hnd. generalize (uniqProf (merge candidates)). intros u Hnd.
  rewrite merge_uniq, merge_log. split.
  - by apply firstOccurrences_id.
  - rewrite duplicateNames_nil; done.
Qed.

(** ** The standard triggers *)

Lemma apt_is_chain (name : string) :
  apt name = aptGet name +:+ " || " +:+ yum name +:+ " || " +:+ apk name.
Proof. reflexivity. Qed.




(** ** The identity key *)





(** ** Hierarchy derivation *)

Section HierarchyFacts.
Implicit Types (prof : list Profile) (source : string).

Lemma childrenOf_snoc source prof p :
  childrenOf source (prof ++ [p])
  = childrenOf source prof
    ++ (if decide (sourceLabel p = Some source) then [Name p] else []).
Proof.
  unfold childrenOf. rewrite filter_app, fmap_app. f_equal.
  rewrite filter_cons, filter_nil. by case_decide.
Qed.

Lemma ProfileTree_snoc prof p :
  ProfileTree (prof ++ [p])
  = match sourceLabel p with
    | Some source =>
        <[ source := default [] (ProfileTree prof !! source) ++ [Name p] ]>
          (ProfileTree prof)
    | None => ProfileTree prof
    end.
Proof. unfold ProfileTree. by rewrite foldl_snoc. Qed.

(** The tree holds, for every label, the children in collection
    order, and no entry for a label without children. *)
Lemma ProfileTree_lookup prof source :
  ProfileTree prof !! source
  = match childrenOf source prof with
    | [] => None
    | children => Some children
    end.
Proof.
  induction prof as [|p prof IH] using rev_ind; [done|].
  rewrite ProfileTree_snoc, childrenOf_snoc.
  destruct (sourceLabel p) as [src|] eqn:Hsrc.
  - destruct (decide (src = source)) as [->|Hne].
    + rewrite lookup_insert_eq, decide_True by done. rewrite IH.
      by destruct (childrenOf source prof).
    + rewrite lookup_insert_ne by done.
      rewrite decide_False by congruence. by rewrite app_nil_r.
  - rewrite decide_False by congruence. by rewrite app_nil_r.
Qed.

Lemma childrenOf_nonempty prof source child :
  child ∈ prof → sourceLabel child = Some source → childrenOf source prof ≠ [].
Proof.
  intros Hin Hsrc Hnil. unfold childrenOf in Hnil.
  apply fmap_nil_inv in Hnil.
  eapply (filter_nil_not_elem_of _ _ child); eauto.
Qed.

Lemma FindGUID_None prof guid :
  FindGUID prof guid = None ↔ ∀ p, p ∈ prof → GUID p ≠ guid.
Proof.
  induction prof as [|q prof IH]; simpl.
  - split; [|done]. intros _ p Hp. by apply elem_of_nil in Hp.
  - case_decide as Hq.
    + split; [done|]. intros Hall. exfalso. apply (Hall q); [left|done].
    + rewrite IH. split.
      * intros Hall p [->|Hp]%elem_of_cons; auto.
      * intros Hall p Hp. apply Hall. by right.
Qed.

Lemma FindGUID_Some prof guid p :
  FindGUID prof guid = Some p → p ∈ prof ∧ GUID p = guid.
Proof.
  induction prof as [|q prof IH]; simpl; [done|].
  case_decide as Hq.
  - intros [= <-]. split; [left|done].
  - intros [Hin Hg]%IH. split; [by right|done].
Qed.
End HierarchyFacts.

Section CommandsFacts.
Variable templateParse : string → option (string → option string → string).
Implicit Types (prof : list Profile) (source command : string).

Lemma commandsOfChildren_missing prof command source ret0 profiles :
  profiles ≠ [] →
  FindGUID prof ("login-" +:+ source) = None →
  commandsOfChildren templateParse prof command source false ret0 profiles
  = Panicked ("login-" +:+ source).
Proof.
  intros Hne Hfind. destruct profiles as [|profile rest]; [done|].
  cbn [commandsOfChildren]. by rewrite Hfind.
Qed.

Lemma commandsOfEntries_missing prof command ret0 entries source children :
  (source, children) ∈ entries →
  children ≠ [] →
  FindGUID prof ("login-" +:+ source) = None →
  ∃ v, commandsOfEntries templateParse prof command ret0 entries = Panicked v.
Proof.
  intros Hin Hne Hfind. revert ret0.
  induction entries as [|[src profiles] entries IH]; intros ret0.
  { by apply elem_of_nil in Hin. }
  cbn [commandsOfEntries].
  apply elem_of_cons in Hin as [[= <- <-]|Hin].
  - rewrite commandsOfChildren_missing by done. eauto.
  - destruct (commandsOfChildren _ _ _ _ _ _ _) as [ret1|v]; [|eauto].
    by apply IH.
Qed.

(** When the template parses and every parent is in the collection,
    no loop panics. *)
Lemma commandsOfChildren_found prof command source login ret0 profiles t :
  templateParse ("AWS_PROFILE={{ .Profile }} " +:+ command) = Some t →
  (login = false → is_Some (FindGUID prof ("login-" +:+ source))) →
  ∃ cmds, commandsOfChildren templateParse prof command source login ret0 profiles
          = Ok cmds.
Proof.
  intros Ht. revert login ret0.
  induction profiles as [|profile rest IH]; intros login ret0 Hfind; [by eexists|].
  cbn [commandsOfChildren]. unfold generateTemplate. rewrite Ht.
  destruct login.
  - destruct (strContains _ _); by apply IH.
  - destruct (Hfind eq_refl) as [iProfile ->].
    destruct (strContains _ _); by apply IH.
Qed.

Lemma commandsOfEntries_found prof command ret0 entries t :
  templateParse ("AWS_PROFILE={{ .Profile }} " +:+ command) = Some t →
  (∀ source children, (source, children) ∈ entries →
     is_Some (FindGUID prof ("login-" +:+ source))) →
  ∃ cmds, commandsOfEntries templateParse prof command ret0 entries = Ok cmds.
Proof.
  intros Ht. revert ret0.
  induction entries as [|[src profiles] entries IH]; intros ret0 Hall; [by eexists|].
  cbn [commandsOfEntries].
  destruct (commandsOfChildren_found prof command src false ret0 profiles t Ht)
    as [ret1 ->].
  { intros _. apply (Hall src profiles). by left. }
  apply IH. intros source children Hin. apply (Hall source children). by right.
Qed.
End CommandsFacts.

(** The login profile that [add] builds for a section without
    [source_profile] is the one that the lookup of the hierarchy finds. *)
Lemma add_builds_parent (os : AwsOS) (p : list Profile) (name : string)
    (config : gmap string string) (p' : list Profile) :
  add os p name config = Some p' →
  config !! "source_profile" = None →
  (∀ q, q ∈ p → GUID q ≠ "login-" +:+ name) →
  ∃ parent, FindGUID p' ("login-" +:+ name) = Some parent ∧
            Name parent = "login-" +:+ name.
Proof.
  unfold add. intros Hadd Hsrc Hfresh.
  destruct (userCurrent os) as [username|]; [|done].
  rewrite lookup_insert_ne, Hsrc in Hadd by done.
  destruct (loginCmd _ _ _) as [cmd|]; [|done].
  injection Hadd as <-. unfold Add.
  assert (Hpre : ∀ l l' g,
             FindGUID l g = None → FindGUID (l ++ l') g = FindGUID l' g).
  { intros l l' g. induction l as [|q l IH]; simpl; [done|].
    case_decide; [done|]. apply IH. }
  eexists. split.
  - rewrite <- app_assoc, Hpre by (by apply FindGUID_None).
    cbn [app FindGUID NewProfile GUID]. rewrite decide_False, decide_True; [done|done|].
    intros Heq. apply (f_equal String.length) in Heq.
    cbv [String.append] in Heq. simpl in Heq. lia.
  - reflexivity.
Qed.

(** C4. The hierarchy maps a source label to the names of the profiles
    that carry it, in collection order, and [generateCommands] looks
    the parent up under the name ["login-"] followed by the label.  In
    a collection where the profiles have the identity key of their
    name and some label has children but no profile of the parent
    name, every run of [generateCommands] panics: no child is dropped
    or put under another parent. *)
Theorem missing_parent_aborts
    (templateParse : string → option (string → option string → string))
    (prof : list Profile) (command source : string) (child : Profile)
    (result : Result (list string)) :
  (∀ p, p ∈ prof → GUID p = Name p) →
  child ∈ prof →
  sourceLabel child = Some source →
  (∀ p, p ∈ prof → Name p ≠ "login-" +:+ source) →
  generateCommands templateParse prof command result →
  ProfileTree prof !! source = Some (childrenOf source prof) ∧
  Name child ∈ childrenOf source prof ∧
  ∃ v, result = Panicked v.
Proof.
  intros Hguid Hchild Hsrc Hmissing (entries & Hperm & Hrun).
  pose proof (childrenOf_nonempty prof source child Hchild Hsrc) as Hne.
  assert (Htree : ProfileTree prof !! source = Some (childrenOf source prof)).
  { rewrite ProfileTree_lookup. by destruct (childrenOf source prof). }
  split_and!; [done| |].
  - unfold childrenOf. apply list_elem_of_fmap_2, list_elem_of_filter. done.
  - rewrite <- Hrun.
    apply (commandsOfEntries_missing _ _ _ _ _ source (childrenOf source prof)).
    + rewrite Hperm. by apply elem_of_map_to_list.
    + done.
    + apply FindGUID_None. intros p Hp. rewrite Hguid by done. by apply Hmissing.
Qed.

Lemma missing_parent_aborts_witness :
  ProfileTree [orphan] !! "main" = Some (childrenOf "main" [orphan]) ∧
  Name orphan ∈ childrenOf "main" [orphan] ∧
  ∃ v, commandsOfEntries (λ _, Some (λ profile _, profile)) [orphan] "aws s3 ls" []
         (map_to_list (ProfileTree [orphan])) = Panicked v.
Proof.
  apply (missing_parent_aborts (λ _, Some (λ profile _, profile)) [orphan]
           "aws s3 ls" "main" orphan).
  - intros p Hp. apply list_elem_of_singleton in Hp. by subst.
  - left.
  - reflexivity.
  - intros p Hp. apply list_elem_of_singleton in Hp. by subst.
  - exists (map_to_list (ProfileTree [orphan])). by split.
Defined.

(** The panic of the run above carries the name of the missing parent. *)
Example orphan_panics :
  commandsOfEntries (λ _, Some (λ profile _, profile)) [orphan] "aws s3 ls" []
    (map_to_list (ProfileTree [orphan])) = Panicked "login-main".
Proof. by vm_compute. Qed.

(** ** Runs of the command *)

Section RunFacts.
Context {A B : Type}.
Implicit Types (m : Run A) (k : A → Run B).

Lemma fst_bind m k :
  fst (m ≫= k)
  = fst m ++ match snd m with Some a => fst (k a) | None => [] end.
Proof.
  destruct m as [t [a|]]; cbn.
  - by destruct (k a).
  - by rewrite app_nil_r.
Qed.

Lemma snd_bind m k :
  snd (m ≫= k) = match snd m with Some a => snd (k a) | None => None end.
Proof. destruct m as [t [a|]]; cbn; [|done]. by destruct (k a). Qed.
End RunFacts.

Section Quiet.
Context {A B : Type}.

Lemma quiet_bind (m : Run A) (k : A → Run B) :
  quiet m → (∀ a, quiet (k a)) → quiet (m ≫= k).
Proof.
  unfold quiet. intros Hm Hk. rewrite fst_bind. apply Forall_app. split; [done|].
  destruct (snd m); [apply Hk|constructor].
Qed.

Lemma quiet_mret (a : A) : quiet (mret a : Run A).
Proof. constructor. Qed.

Lemma quiet_exit_fatal msg : quiet (exit_ (Fatal msg) : Run A).
Proof. apply Forall_cons. split; [by split|constructor]. Qed.

Lemma quiet_exit_panic v : quiet (exit_ (Panic v) : Run A).
Proof. apply Forall_cons. split; [by split|constructor]. Qed.
End Quiet.

Lemma quiet_emit (e : Event) : quietEvent e → quiet (emit e).
Proof. intros He. apply Forall_cons. split; [done|constructor]. Qed.

Ltac quiet_step :=
  first
    [ apply quiet_bind; [|intros ?]
    | apply quiet_mret
    | apply quiet_exit_fatal
    | apply quiet_exit_panic
    | apply quiet_emit; by split
    | case_match ].

Lemma storeToCache_quiet w profiles : quiet (storeToCache w profiles).
Proof. unfold storeToCache. repeat quiet_step. Qed.

Lemma loadFromCache_quiet w : quiet (loadFromCache w).
Proof. unfold loadFromCache. repeat quiet_step. Qed.

Lemma ssmSource_quiet f w : quiet (ssmSource f w).
Proof.
  unfold ssmSource. destruct (ignoreInstances f); cbn [negb].
  - apply loadFromCache_quiet.
  - apply quiet_bind; [by apply quiet_emit|intros _].
    destruct (Generate _ _); [|apply quiet_exit_panic].
    destruct (ssmMarshal w); cbn [negb]; [|apply quiet_exit_fatal].
    apply quiet_bind; [apply storeToCache_quiet|intros _; apply quiet_mret].
Qed.

Lemma gather_quiet f w : quiet (gather f w).
Proof.
  unfold gather.
  do 3 (apply quiet_bind; [by apply quiet_emit|intros _]).
  destruct (keychainAccounts w); [|apply quiet_exit_fatal].
  do 3 (apply quiet_bind; [by apply quiet_emit|intros _]).
  apply quiet_bind; [apply ssmSource_quiet|intros ssmProfs].
  apply quiet_bind; [by apply quiet_emit|intros _].
  destruct (vaultProfile w); [apply quiet_mret|].
  apply quiet_bind; [by apply quiet_emit|intros _; apply quiet_mret].
Qed.

Lemma quiet_modes {A} (m : Run A) : quiet m → modesRun (fst m) = [].
Proof.
  unfold quiet, modesRun. induction 1 as [|e t [He _] _ IH]; [done|].
  cbn. by rewrite He.
Qed.

Lemma mergeWarnings_quiet st : Forall quietEvent (mergeWarnings st).
Proof.
  unfold mergeWarnings. apply Forall_forall. intros e Hin.
  apply list_elem_of_fmap in Hin as (? & -> & _). by split.
Qed.

Lemma modesRun_app t1 t2 : modesRun (t1 ++ t2) = modesRun t1 ++ modesRun t2.
Proof. unfold modesRun. apply omap_app. Qed.

Lemma modesRun_quiet t : Forall quietEvent t → modesRun t = [].
Proof.
  unfold modesRun. induction 1 as [|e t [He _] _ IH]; [done|].
  cbn. by rewrite He.
Qed.

(** Every branch of [reconcile] runs the mode that the flags select,
    and no other. *)
Lemma reconcile_modes f w prof :
  modesRun (fst (reconcile f w prof)) = [selectedMode f].
Proof.
  unfold reconcile, selectedMode.
  destruct (write f).
  { by destruct (writeFile w). }
  destruct (diff f); [|done].
  destruct (readOutput w) as [[current|]|]; [|done|done].
  cbn. by case_decide.
Qed.

(** The trace of a run that got past the flag checks. *)
Lemma generateCmd_trace f w :
  write f && dryRun f = false →
  write f && diff f = false →
  fst (generateCmd f w)
  = fst (gather f w)
    ++ match snd (gather f w) with
       | None => []
       | Some prof =>
           let uniq := merge (UpdateAWSSmartSelectionRules w (UpdateKeyboardMaps w prof)) in
           mergeWarnings uniq
           ++ (if marshal w then fst (reconcile f w (uniqProf uniq))
               else [Fatal "cannot indent json"])
       end.
Proof.
  intros H1 H2. unfold generateCmd. rewrite H1, H2, fst_bind.
  f_equal. destruct (snd (gather f w)) as [prof|]; [|done].
  rewrite fst_bind. cbn [fst snd]. f_equal.
  by destruct (marshal w).
Qed.

Lemma generateCmd_value f w :
  write f && dryRun f = false →
  write f && diff f = false →
  snd (generateCmd f w)
  = match snd (gather f w) with
    | None => None
    | Some prof =>
        if marshal w
        then snd (reconcile f w
                    (uniqProf (merge (UpdateAWSSmartSelectionRules w
                                        (UpdateKeyboardMaps w prof)))))
        else None
    end.
Proof.
  intros H1 H2. unfold generateCmd. rewrite H1, H2, snd_bind.
  destruct (snd (gather f w)) as [prof|]; [|done].
  rewrite snd_bind. cbn [fst snd]. by destruct (marshal w).
Qed.

(** C5. With both the write flag and the diff flag the run ends in a
    usage error and does nothing else: no source is consulted, nothing
    is merged, read, written or printed.  Every run executes at most
    one of the three modes, the one that the flags select, and a run
    that reaches its end has executed exactly that one. *)
Theorem conflicting_modes_rejected (f : Flags) (w : World) :
  (∀ dry ignore,
     ∃ msg, generateCmd (mkFlags true true dry ignore) w = ([Fatal msg], None)) ∧
  (modesRun (fst (generateCmd f w)) = [] ∨
   modesRun (fst (generateCmd f w)) = [selectedMode f]) ∧
  (is_Some (snd (generateCmd f w)) →
   modesRun (fst (generateCmd f w)) = [selectedMode f]).
Proof.
  split_and!.
  - intros dry ignore. unfold generateCmd. cbn. destruct dry; eauto.
  - destruct (write f && dryRun f) eqn:H1; [left; unfold generateCmd; by rewrite H1|].
    destruct (write f && diff f) eqn:H2; [left; unfold generateCmd; by rewrite H1, H2|].
    rewrite generateCmd_trace by done.
    rewrite modesRun_app, (quiet_modes _ (gather_quiet f w)), app_nil_l.
    destruct (snd (gather f w)) as [prof|]; [|by left].
    cbn zeta. rewrite modesRun_app, (modesRun_quiet _ (mergeWarnings_quiet _)), app_nil_l.
    destruct (marshal w); [right; apply reconcile_modes|by left].
  - destruct (write f && dryRun f) eqn:H1.
    { unfold generateCmd. rewrite H1. by intros [? [=]]. }
    destruct (write f && diff f) eqn:H2.
    { unfold generateCmd. rewrite H1, H2. by intros [? [=]]. }
    rewrite generateCmd_value, generateCmd_trace by done.
    rewrite modesRun_app, (quiet_modes _ (gather_quiet f w)), app_nil_l.
    destruct (snd (gather f w)) as [prof|]; [|by intros [? [=]]].
    cbn zeta. rewrite modesRun_app, (modesRun_quiet _ (mergeWarnings_quiet _)), app_nil_l.
    destruct (marshal w); [intros _; apply reconcile_modes|by intros [? [=]]].
Qed.

(** ** Reconciliation: the order of the identity keys *)

Section StringOrder.
Lemma ltb_irrefl (s : string) : String.ltb s s = false.
Proof.
  unfold String.ltb. destruct (String.compare s s) eqn:Hc; try done.
  pose proof (String.compare_antisym s s) as Ha. rewrite Hc in Ha. done.
Qed.




End StringOrder.



Section SortFacts.
Implicit Types (x : Profile) (l before : list Profile).

Lemma sink_perm x before : sink x before ≡ₚ x :: before.
Proof.
  induction before as [|y rest IH]; simpl; [done|].
  case_match; [|done]. rewrite IH. apply Permutation_swap.
Qed.


Lemma foldl_sink_perm l before :
  foldl (λ before x, sink x before) before l ≡ₚ l ++ before.
Proof.
  revert before. induction l as [|x l IH]; intros before; simpl; [done|].
  rewrite IH, sink_perm. by rewrite Permutation_middle.
Qed.


(** [sortSlice] permutes its argument into the order of the keys. *)
Lemma sortSlice_perm l : sortSlice l ≡ₚ l.
Proof.
  unfold sortSlice. rewrite reverse_Permutation, foldl_sink_perm.
  by rewrite app_nil_r.
Qed.





End SortFacts.




(** The same in a whole run of the command: the collection of the run
    is a permutation of the one in the output file, with unique names,
    and the run reports a difference. *)
Example diff_run_with_equal_keys :
  generateCmd diffFlags twinWorld
  = ([ Consulted "aws"; Consulted "k8s"; Consulted "keychain"; Consulted "vim";
       Consulted "ssh"; Consulted "config"; Consulted "ssm"; CacheStored [];
       Consulted "vault"; WarnLog "cannot add vault profile" ""; OutputRead;
       DiffPrinted [defaultProfile; twinA; twinB; NewProfile "vim" ∅]
                   [defaultProfile; twinB; twinA; NewProfile "vim" ∅] ],
     Some tt).
Proof. by vm_compute. Qed.

(** ** The built-in profile *)

Section DefaultProfileFacts.
Implicit Types (l : list Profile) (p : Profile).

Lemma firstOccurrences_subset l p : p ∈ firstOccurrences l → p ∈ l.
Proof. apply firstOccurrences_names. Qed.

(** A candidate with a name that no candidate before it has is kept. *)
Lemma firstOccurrences_keeps l1 p l2 :
  Name p ∉ (Name <$> l1) → p ∈ firstOccurrences (l1 ++ p :: l2).
Proof.
  induction l1 as [|q l1 IH]; intros Hfresh.
  - left.
  - cbn [app firstOccurrences]. right.
    rewrite fmap_cons, not_elem_of_cons in Hfresh. destruct Hfresh as [Hne Hfresh].
    apply list_elem_of_filter. split; [done|]. by apply IH.
Qed.

(** Some candidate of every name is kept. *)
Lemma firstOccurrences_name l n :
  n ∈ (Name <$> l) → n ∈ (Name <$> firstOccurrences l).
Proof.
  induction l as [|q l IH]; [done|].
  cbn [firstOccurrences]. rewrite !fmap_cons, !elem_of_cons.
  destruct (decide (n = Name q)) as [->|Hne]; [by left|].
  intros [?|Hin]; [done|]. right.
  apply IH in Hin. apply list_elem_of_fmap in Hin as (p & -> & Hp).
  apply list_elem_of_fmap_2, list_elem_of_filter. done.
Qed.
End DefaultProfileFacts.

(** The collections that a run hands to the outside are the merged
    collection and, in report-diff mode, the merged collection sorted. *)
Lemma reconcile_collections f w prof e c :
  e ∈ fst (reconcile f w prof) → collectionOf e = Some c →
  c = prof ∨ c = sortSlice prof.
Proof.
  unfold reconcile.
  destruct (write f).
  { destruct (writeFile w); cbn; intros He Hc; set_unfold;
      destruct He as [->|He]; try destruct He as [->|[]]; try done;
      cbn in Hc; left; congruence. }
  destruct (diff f).
  - destruct (readOutput w) as [[current|]|]; cbn.
    + case_decide; cbn; intros He Hc; set_unfold.
      * by destruct He as [->|[]].
      * destruct He as [->|[->|[]]]; [done|]. cbn in Hc. right. congruence.
    + intros He Hc. set_unfold. by destruct He as [->|[->|[]]].
    + intros He Hc. set_unfold. by destruct He as [->|[->|[]]].
  - cbn. intros He Hc. set_unfold. destruct He as [->|[]]. cbn in Hc. left. congruence.
Qed.

Lemma generateCmd_collections f w e c :
  e ∈ fst (generateCmd f w) → collectionOf e = Some c →
  ∃ prof, snd (gather f w) = Some prof ∧
    let uniq := uniqProf (merge (UpdateAWSSmartSelectionRules w
                                   (UpdateKeyboardMaps w prof))) in
    c = uniq ∨ c = sortSlice uniq.
Proof.
  destruct (write f && dryRun f) eqn:H1.
  { unfold generateCmd. rewrite H1. cbn. intros He Hc. set_unfold.
    by destruct He as [->|[]]. }
  destruct (write f && diff f) eqn:H2.
  { unfold generateCmd. rewrite H1, H2. cbn. intros He Hc. set_unfold.
    by destruct He as [->|[]]. }
  rewrite generateCmd_trace by done. intros He Hc.
  apply elem_of_app in He as [He|He].
  { pose proof (gather_quiet f w) as Hq. unfold quiet in Hq.
    rewrite Forall_forall in Hq. destruct (Hq e He). congruence. }
  destruct (snd (gather f w)) as [prof|]; [|by apply elem_of_nil in He].
  exists prof. split; [done|]. cbn zeta in *.
  apply elem_of_app in He as [He|He].
  { pose proof (mergeWarnings_quiet
                  (merge (UpdateAWSSmartSelectionRules w (UpdateKeyboardMaps w prof))))
      as Hq.
    rewrite Forall_forall in Hq. destruct (Hq e He). congruence. }
  destruct (marshal w).
  - by eapply reconcile_collections.
  - set_unfold. by destruct He as [->|[]].
Qed.

(** The candidates of a run: the built-in profile follows the profiles
    of the AWS configuration, of the clusters and of the key chain. *)
Lemma gather_default f w prof :
  snd (gather f w) = Some prof →
  ∃ accounts after,
    keychainAccounts w = Some accounts ∧
    prof = (awsProfiles w ++ k8sProfiles w (dryRun f)
            ++ keychainProfiles keyChain accounts)
           ++ defaultProfile :: after.
Proof.
  unfold gather. rewrite !snd_bind. cbn [emit snd].
  destruct (keychainAccounts w) as [accounts|]; [|done].
  rewrite !snd_bind. cbn [emit snd].
  destruct (snd (ssmSource f w)) as [ssmProfs|]; [|done].
  rewrite snd_bind. cbn [emit snd].
  destruct (vaultProfile w) as [v|]; cbn; intros [= <-];
    exists accounts; eexists; (split; [done|]);
    rewrite <- !app_assoc; cbn [app]; reflexivity.
Qed.


(** A run in which no source yields a profile of its own prints the
    built-in profile and the one of the editor. *)
Example quiet_run_prints_default :
  generateCmd printFlags (quietWorld [])
  = ([ Consulted "aws"; Consulted "k8s"; Consulted "keychain"; Consulted "vim";
       Consulted "ssh"; Consulted "config"; Consulted "ssm"; CacheStored [];
       Consulted "vault"; WarnLog "cannot add vault profile" "";
       JSONPrinted [defaultProfile; NewProfile "vim" ∅] ],
     Some tt).
Proof. by vm_compute. Qed.

(** ** Discovery *)

(** The copy of the accumulator onto itself, under the lock, changes
    nothing. *)
Lemma copy_onto_itself (ids : gmap string string) :
  map_fold (λ k v acc, <[ k := v ]> acc) ids ids = ids.
Proof.
  assert (H : ∀ m : gmap string string, m ⊆ ids →
            map_fold (λ k v acc, <[ k := v ]> acc) ids m = ids).
  { intros m. induction m as [|k v m Hk Hfold IH] using map_first_key_ind.
    - by rewrite map_fold_empty.
    - intros Hsub. rewrite map_fold_insert_first_key by done.
      rewrite IH.
      + apply insert_id. eapply lookup_weaken; [|exact Hsub]. apply lookup_insert_eq.
      + etrans; [|exact Hsub]. by apply insert_subseteq. }
  by apply H.
Qed.

(** When the output of [ListAccountAliases] is there, an empty list of
    aliases makes the scope go on under the raw account identity. *)
Lemma no_alias_uses_account (s : Scope) (account : string) (ids : list string)
    (failure failure' : option string) :
  loadDefaultConfig s = None →
  getCallerIdentity s = mkReply (Some account) None →
  listAccountAliases s = mkReply (Some []) failure →
  describeInstanceInformation s = mkReply (Some ids) None →
  beforeLoop s = Ok (Some (mkAccount account account, ids)).
Proof. unfold beforeLoop. by intros -> -> -> ->. Qed.

(** When the call fails the way the SDK fails, with a nil output, the
    scope panics where it reads the aliases. *)
Lemma nil_aliases_panic (s : Scope) (account failure : string)
    (instanceIDs : gmap string string) :
  loadDefaultConfig s = None →
  getCallerIdentity s = mkReply (Some account) None →
  listAccountAliases s = mkReply None (Some failure) →
  generateForProfile s instanceIDs
  = Panicked "invalid memory address or nil pointer dereference".
Proof. unfold generateForProfile, beforeLoop. by intros -> -> ->. Qed.

(** C7. A scope whose alias cannot be resolved does not go on: the
    failed call returns no output, reading the aliases from it panics,
    and the panic ends the whole discovery, so the scope emits no
    profile under the raw account identity. *)
Theorem alias_failure_panics :
  generateForProfile scopeWithoutAlias ∅
  = Panicked "invalid memory address or nil pointer dereference" ∧
  Generate (Some [scopeWithoutAlias]) []
  = Panicked "invalid memory address or nil pointer dereference" ∧
  Generate (Some [scopeSeeingWeb "p2"; scopeWithoutAlias]) []
  = Panicked "invalid memory address or nil pointer dereference".
Proof. split_and!; by vm_compute. Qed.

(** C2. Two scopes see the instance [i-123].  When each worker has
    looked the instance up before the other has recorded it, both
    build a profile for it and [Generate] returns two profiles; the
    accumulator ends with one entry.  The lock is taken only after
    [generateForProfile] has returned, so it does not make the lookup
    and the insertion one step.  When one worker finishes before the
    other starts, one profile is returned. *)
Theorem fanout_emits_instance_twice :
  Generate (Some [scopeSeeingWeb "p1"; scopeSeeingWeb "p2"]) [0; 1]
  = Ok [ instanceProfile (scopeSeeingWeb "p1") webAccount "web";
         instanceProfile (scopeSeeingWeb "p2") webAccount "web" ] ∧
  instances (fanout [scopeSeeingWeb "p1"; scopeSeeingWeb "p2"] [0; 1])
  = {[ "i-123" := "web" ]} ∧
  Generate (Some [scopeSeeingWeb "p1"; scopeSeeingWeb "p2"]) []
  = Ok [ instanceProfile (scopeSeeingWeb "p1") webAccount "web" ].
Proof. split_and!; by vm_compute. Qed.

(** ** More on the merge loop and the runs of the command *)

Lemma merge_partition (l : list Profile) :
  Name <$> l
  ≡ₚ (Name <$> uniqProf (merge l)) ++ (warnName <$> mergeLog (merge l)).
Proof.
  induction l as [|p l IH] using rev_ind; [done|].
  rewrite merge_snoc, fmap_app, IH. unfold mergeStep. case_decide; cbn.
  - rewrite fmap_app, !app_assoc. done.
  - rewrite fmap_app. cbn. rewrite <- !app_assoc.
    apply Permutation_app_head, Permutation_app_comm.
Qed.

Lemma merge_log_names (l : list Profile) (n : string) :
  n ∈ (warnName <$> mergeLog (merge l)) → n ∈ (Name <$> uniqProf (merge l)).
Proof.
  induction l as [|p l IH] using rev_ind; [by intros ?%elem_of_nil|].
  rewrite merge_snoc. unfold mergeStep. case_decide as Hin; cbn.
  - rewrite fmap_app, elem_of_app. intros [Hn|Hn]; [by apply IH|].
    apply list_elem_of_singleton in Hn as ->.
    rewrite existing_merge in Hin. apply elem_of_list_to_set in Hin.
    rewrite merge_uniq. by apply firstOccurrences_name.
  - rewrite fmap_app, elem_of_app. intros Hn. left. by apply IH.
Qed.

(** X1. The merge loop accounts for every candidate: the names of the
    kept profiles together with the names in the warnings are the
    names of the candidates, each as often as it came, and every name
    in a warning is the name of a kept profile. *)
Theorem merge_accounts_for_every_candidate (candidates : list Profile) :
  Name <$> candidates
  ≡ₚ (Name <$> uniqProf (merge candidates))
     ++ (warnName <$> mergeLog (merge candidates)) ∧
  length (uniqProf (merge candidates)) + length (mergeLog (merge candidates))
  = length candidates ∧
  ∀ n, n ∈ (warnName <$> mergeLog (merge candidates)) →
       n ∈ (Name <$> uniqProf (merge candidates)).
Proof.
  split_and!.
  - apply merge_partition.
  - pose proof (Permutation_length (merge_partition candidates)) as Hlen.
    rewrite length_app, !length_fmap in Hlen. lia.
  - apply merge_log_names.
Qed.





(** X3. Every collection that a run writes, prints or reports a
    difference for has no two profiles of the same name. *)
Theorem outputs_have_unique_names (f : Flags) (w : World) (e : Event)
    (c : list Profile) :
  e ∈ fst (generateCmd f w) → collectionOf e = Some c → NoDup (Name <$> c).
Proof.
  intros He Hc.
  destruct (generateCmd_collections f w e c He Hc) as (prof & _ & Hcase).
  cbn zeta in Hcase. destruct Hcase as [->| ->].
  - apply merge_NoDup.
  - rewrite sortSlice_perm. apply merge_NoDup.
Qed.

Lemma outputs_have_unique_names_witness :
  NoDup (Name <$> [defaultProfile; NewProfile "vim" ∅]).
Proof.
  apply (outputs_have_unique_names printFlags (quietWorld [])
           (JSONPrinted [defaultProfile; NewProfile "vim" ∅])).
  - vm_compute. do 10 right. left.
  - reflexivity.
Defined.

(** The events of a run that got past the flag checks: those of the
    gathering phase, the warnings of the merge loop, and those of the
    last phase. *)
Lemma generateCmd_events (f : Flags) (w : World) (e : Event) :
  e ∈ fst (generateCmd f w) →
  e ∈ fst (gather f w) ∨ (∃ msg, e = Fatal msg) ∨ (∃ msg d, e = WarnLog msg d) ∨
  e = OutputRead ∨ (∃ c, e = OutputWritten c) ∨ (∃ c, e = JSONPrinted c) ∨
  (∃ a b, e = DiffPrinted a b).
Proof.
  destruct (write f && dryRun f) eqn:H1.
  { unfold generateCmd. rewrite H1. cbn. intros ->%list_elem_of_singleton. eauto. }
  destruct (write f && diff f) eqn:H2.
  { unfold generateCmd. rewrite H1, H2. cbn. intros ->%list_elem_of_singleton. eauto. }
  rewrite generateCmd_trace by done. intros [He|He]%elem_of_app; [by left|].
  destruct (snd (gather f w)) as [prof|]; [|by apply elem_of_nil in He].
  cbn zeta in He. apply elem_of_app in He as [He|He].
  { unfold mergeWarnings in He. apply list_elem_of_fmap in He as (x & -> & _).
    right; right; left. eauto. }
  destruct (marshal w); [|apply list_elem_of_singleton in He as ->; eauto].
  revert He. unfold reconcile.
  destruct (write f).
  { destruct (writeFile w); cbn; intros He; set_unfold; naive_solver. }
  destruct (diff f).
  - destruct (readOutput w) as [[current|]|]; cbn; [case_decide; cbn|..];
      intros He; set_unfold; naive_solver.
  - cbn. intros He. set_unfold. naive_solver.
Qed.

Lemma gather_events_cached (f : Flags) (w : World) (e : Event) :
  ignoreInstances f = true → e ∈ fst (gather f w) →
  (∃ source, e = Consulted source ∧ source ≠ "ssm") ∨ (∃ msg, e = Fatal msg) ∨
  (∃ msg d, e = WarnLog msg d) ∨ (∃ msg, e = InfoLog msg) ∨ e = CacheLoaded.
Proof.
  intros Hign. unfold gather, ssmSource, loadFromCache. rewrite Hign.
  destruct (keychainAccounts w), (cacheFile w), (cacheRead w) as [[?|]|],
    (vaultProfile w); cbn; intros He; set_unfold; naive_solver.
Qed.

Lemma gather_events_live (f : Flags) (w : World) (e : Event) :
  ignoreInstances f = false → e ∈ fst (gather f w) →
  (∃ source, e = Consulted source) ∨ (∃ msg, e = Fatal msg) ∨
  (∃ msg d, e = WarnLog msg d) ∨ (∃ v, e = Panic v) ∨
  (∃ ps, e = CacheStored ps ∧ Generate (ssmScopes w) (ssmSchedule w) = Ok ps).
Proof.
  intros Hign. unfold gather, ssmSource, storeToCache. rewrite Hign.
  destruct (keychainAccounts w), (Generate (ssmScopes w) (ssmSchedule w)),
    (ssmMarshal w), (cacheFile w), (cacheWrite w), (vaultProfile w);
    cbn; intros He; set_unfold; naive_solver.
Qed.

(** X4. With the ignore-instances flag a run does not call the
    discovery and does not write the cache; without the flag it does
    not read the cache.  What is written to the cache is the list that
    the discovery returned, as it was before the merge. *)
Theorem cache_follows_ignore_instances (f : Flags) (w : World) (e : Event) :
  e ∈ fst (generateCmd f w) →
  (ignoreInstances f = true →
   e ≠ Consulted "ssm" ∧ (∀ ps, e ≠ CacheStored ps) ∧ (∀ v, e ≠ Panic v)) ∧
  (ignoreInstances f = false → e ≠ CacheLoaded) ∧
  (∀ ps, e = CacheStored ps →
         ignoreInstances f = false ∧
         Generate (ssmScopes w) (ssmSchedule w) = Ok ps).
Proof.
  intros He. apply generateCmd_events in He.
  destruct (ignoreInstances f) eqn:Hign.
  - destruct He as [He|He].
    + apply gather_events_cached in He; [|done]. naive_solver.
    + naive_solver.
  - destruct He as [He|He].
    + apply gather_events_live in He; [|done]. naive_solver.
    + naive_solver.
Qed.

Lemma cache_follows_ignore_instances_witness :
  (ignoreInstances printFlags = true →
   CacheStored [] ≠ Consulted "ssm" ∧ (∀ ps, CacheStored [] ≠ CacheStored ps) ∧
   (∀ v, CacheStored [] ≠ Panic v)) ∧
  (ignoreInstances printFlags = false → CacheStored [] ≠ CacheLoaded) ∧
  (∀ ps, CacheStored [] = CacheStored ps →
         ignoreInstances printFlags = false ∧
         Generate (ssmScopes (quietWorld [])) (ssmSchedule (quietWorld [])) = Ok ps).
Proof.
  apply (cache_follows_ignore_instances printFlags (quietWorld [])).
  vm_compute. do 7 right. left.
Defined.

(** ** Replacing in strings *)

Section ReplaceFacts.
Variables (old : string) (c : ascii).
Hypothesis old_nonempty : old ≠ "".

Local Abbreviation R := (replaceFrom old (String c "") 0).

Lemma length_append (a b : string) :
  String.length (a +:+ b) = String.length a + String.length b.
Proof.
  induction a as [|x a IH]; [done|].
  change (String x a +:+ b) with (String x (a +:+ b)). cbn. by rewrite IH.
Qed.

Lemma prefix_nil (s : string) : String.prefix "" s = true.
Proof. by destruct s. Qed.

Lemma prefix_app (s t : string) : String.prefix s (s +:+ t) = true.
Proof.
  induction s as [|x s IH]; [apply prefix_nil|].
  change (String x s +:+ t) with (String x (s +:+ t)).
  cbn. destruct (ascii_dec x x); [done|congruence].
Qed.

Lemma prefix_split (s t : string) :
  String.prefix s t = true → ∃ u, t = s +:+ u.
Proof.
  revert t. induction s as [|x s IH]; intros t; [by exists t|].
  destruct t as [|y t]; [done|]. cbn.
  destruct (ascii_dec x y) as [->|]; [|done].
  intros [u ->]%IH. by exists u.
Qed.

Lemma replaceFrom_skip (o new a t : string) :
  replaceFrom o new (String.length a) (a +:+ t) = replaceFrom o new 0 t.
Proof. induction a as [|x a IH]; [done|]. exact IH. Qed.

Lemma replace_match (t : string) : R (old +:+ t) = String c (R t).
Proof.
  destruct old as [|p0 rest] eqn:Hold; [done|].
  change (String p0 rest +:+ t) with (String p0 (rest +:+ t)).
  cbn [replaceFrom].
  assert (Hp : String.prefix (String p0 rest) (String p0 (rest +:+ t)) = true)
    by apply (prefix_app (String p0 rest) t).
  rewrite Hp.
  replace (String.length (String p0 rest) - 1) with (String.length rest)
    by (cbn; lia).
  by rewrite replaceFrom_skip.
Qed.

Lemma replace_copy (x : ascii) (t : string) :
  String.prefix old (String x t) = false → R (String x t) = String x (R t).
Proof. intros Hp. cbn [replaceFrom]. by rewrite Hp. Qed.

(** Induction along the replacement: the text is empty, begins with
    a match, or begins with a byte that is copied. *)
Lemma replace_ind (Q : string → string → Prop) :
  Q "" "" →
  (∀ t, Q t (R t) → Q (old +:+ t) (String c (R t))) →
  (∀ x t, String.prefix old (String x t) = false → Q t (R t) →
          Q (String x t) (String x (R t))) →
  ∀ s, Q s (R s).
Proof.
  intros Hnil Hmatch Hcopy s.
  remember (String.length s) as n eqn:Hn. revert s Hn.
  induction n as [n IH] using lt_wf_ind. intros s ->.
  destruct s as [|x t]; [done|].
  destruct (String.prefix old (String x t)) eqn:Hp.
  - apply prefix_split in Hp as [u Hu]. rewrite Hu, replace_match.
    apply Hmatch.
    assert (Hlen : String.length u < String.length (String x t)).
    { rewrite Hu, length_append. destruct old; [done|]. cbn. lia. }
    eapply IH; [|reflexivity]. lia.
  - rewrite replace_copy by done. apply Hcopy; [done|].
    eapply IH; [|reflexivity]. cbn. lia.
Qed.

Lemma prefix_cons (x y : ascii) (s t : string) :
  String.prefix (String x s) (String y t) = true ↔ x = y ∧ String.prefix s t = true.
Proof. cbn. destruct (ascii_dec x y); naive_solver. Qed.

Lemma strContains_prefix (w s : string) :
  String.prefix w s = true → strContains w s = true.
Proof. intros Hp. destruct s; cbn [strContains]; by rewrite Hp. Qed.

Lemma strContains_cons (w : string) (x : ascii) (s : string) :
  strContains w s = true → strContains w (String x s) = true.
Proof. intros Hs. cbn [strContains]. rewrite Hs. apply orb_true_r. Qed.

Lemma strContains_app_r (w a s : string) :
  strContains w s = true → strContains w (a +:+ s) = true.
Proof.
  intros Hs. induction a as [|x a IH]; [done|].
  change (String x a +:+ s) with (String x (a +:+ s)). by apply strContains_cons.
Qed.

(** A text that has no byte [c] and stands at the front of the result
    stands at the front of the argument. *)
Lemma replace_prefix (w s : string) :
  hasChar c w = false → String.prefix w (R s) = true → String.prefix w s = true.
Proof.
  revert w. apply (replace_ind (λ s o, ∀ w, hasChar c w = false →
                      String.prefix w o = true → String.prefix w s = true)).
  - done.
  - intros t _ [|y w] Hc Hp; [apply prefix_nil|].
    apply prefix_cons in Hp as [-> _]. cbn in Hc.
    rewrite bool_decide_true in Hc by done. done.
  - intros x t _ IH [|y w] Hc Hp; [apply prefix_nil|].
    apply prefix_cons in Hp as [-> Hp]. apply prefix_cons. split; [done|].
    apply IH; [|done]. cbn in Hc. by apply orb_false_elim in Hc as [_ ?].
Qed.

(** The same anywhere in the result. *)
Lemma replace_contains (w s : string) :
  hasChar c w = false → strContains w (R s) = true → strContains w s = true.
Proof.
  intros Hc. apply (replace_ind (λ s o,
                      strContains w o = true → strContains w s = true)).
  - done.
  - intros t IH Ho. cbn [strContains] in Ho.
    apply orb_true_iff in Ho as [Hp|Ho].
    + destruct w as [|y w]; [apply strContains_prefix, prefix_nil|].
      apply prefix_cons in Hp as [-> _]. cbn in Hc.
      rewrite bool_decide_true in Hc by done. done.
    + by apply strContains_app_r, IH.
  - intros x t Hno IH Ho.
    assert (Ho' := Ho). cbn [strContains] in Ho.
    apply orb_true_iff in Ho as [Hp|Ho].
    + apply strContains_prefix.
      apply replace_prefix; [done|]. by rewrite replace_copy.
    + by apply strContains_cons, IH.
Qed.

(** No occurrence of [old] is left when [old] has no byte [c]. *)
Lemma replace_leaves_none (s : string) :
  hasChar c old = false → strContains old (R s) = false.
Proof.
  intros Hc. apply (replace_ind (λ s o, strContains old o = false)).
  - cbn. destruct old; [done|]. done.
  - intros t IH. cbn [strContains]. rewrite IH, orb_false_r.
    destruct old as [|p0 rest]; [done|]. cbn.
    destruct (ascii_dec p0 c) as [->|]; [|done].
    cbn in Hc. rewrite bool_decide_true in Hc by done. done.
  - intros x t Hno IH. cbn [strContains]. rewrite IH, orb_false_r.
    destruct (String.prefix old (String x (R t))) eqn:Hp; [|done].
    rewrite <- replace_copy in Hp by done.
    apply replace_prefix in Hp; [|done]. congruence.
Qed.

(** A text without an occurrence of [old] is left as it is. *)
Lemma replace_nothing (s : string) :
  strContains old s = false → R s = s.
Proof.
  apply (replace_ind (λ s o, strContains old s = false → o = s)).
  - done.
  - intros t _ Hno. rewrite strContains_prefix in Hno; [done|apply prefix_app].
  - intros x t _ IH Hno. cbn [strContains] in Hno.
    apply orb_false_elim in Hno as [_ Hno]. by rewrite IH.
Qed.
End ReplaceFacts.

(** X5. The text that the command writes or prints has no escaped
    ampersand and no escaped greater-than sign left in it, and a text
    that has neither is written as it is. *)
Theorem unescape_leaves_no_escape (profJSON : string) :
  strContains escapedAmpersand (unescape profJSON) = false ∧
  strContains escapedGreater (unescape profJSON) = false ∧
  (strContains escapedAmpersand profJSON = false →
   strContains escapedGreater profJSON = false →
   unescape profJSON = profJSON).
Proof.
  unfold unescape, strReplaceAll. split_and!.
  - destruct (strContains escapedAmpersand
                (replaceFrom escapedGreater ">" 0
                   (replaceFrom escapedAmpersand "&" 0 profJSON))) eqn:Hc; [|done].
    apply (replace_contains escapedGreater ">"%char) in Hc; [|done|done].
    by rewrite (replace_leaves_none escapedAmpersand "&"%char) in Hc.
  - by apply (replace_leaves_none escapedGreater ">"%char).
  - intros Ha Hg.
    rewrite (replace_nothing escapedAmpersand "&"%char) by done.
    by apply (replace_nothing escapedGreater ">"%char).
Qed.

(** ** The commands of the hierarchy *)

Section BlockFacts.
Variable templateParse : string → option (string → option string → string).
Implicit Types (prof : list Profile) (source command : string).

Local Abbreviation render command t :=
  (λ child : string,
     if strContains "{{ .Region }}" ("AWS_PROFILE={{ .Profile }} " +:+ command)
     then String.concat "" (map (λ region, t child (Some region)) Regions)
     else t child None).

Lemma generateTemplate_parsed command child t :
  templateParse ("AWS_PROFILE={{ .Profile }} " +:+ command) = Some t →
  generateTemplate templateParse ("AWS_PROFILE={{ .Profile }} " +:+ command) child
  = Ok (render command t child).
Proof. intros Ht. unfold generateTemplate. rewrite Ht. by destruct (strContains _ _). Qed.

Lemma commandsOfChildren_logged_in prof command source ret0 profiles t :
  templateParse ("AWS_PROFILE={{ .Profile }} " +:+ command) = Some t →
  commandsOfChildren templateParse prof command source true ret0 profiles
  = Ok (ret0 ++ map (render command t) profiles).
Proof.
  intros Ht. revert ret0. induction profiles as [|p rest IH]; intros ret0.
  - by rewrite app_nil_r.
  - cbn [commandsOfChildren map]. rewrite (generateTemplate_parsed _ _ t Ht).
    by rewrite IH, <- app_assoc.
Qed.

Lemma commandsOfChildren_block prof command source ret0 profiles :
  entryOk templateParse prof command (source, profiles) →
  commandsOfChildren templateParse prof command source false ret0 profiles
  = Ok (ret0 ++ blockOf templateParse prof command (source, profiles)).
Proof.
  unfold entryOk, blockOf. cbn [fst snd].
  destruct profiles as [|p rest].
  { intros _. by rewrite app_nil_r. }
  intros [?|[[iProfile Hfind] [t Ht]]]; [done|].
  rewrite Hfind, Ht. cbn [commandsOfChildren map]. rewrite Hfind.
  rewrite (generateTemplate_parsed _ _ t Ht).
  rewrite (commandsOfChildren_logged_in _ _ _ _ _ t Ht), <- !app_assoc. done.
Qed.

Lemma commandsOfChildren_panics prof command source ret0 profiles :
  ¬ entryOk templateParse prof command (source, profiles) →
  ∃ v, commandsOfChildren templateParse prof command source false ret0 profiles
       = Panicked v.
Proof.
  unfold entryOk. cbn [fst snd]. intros Hnot.
  destruct profiles as [|p rest]; [by destruct Hnot; left|].
  cbn [commandsOfChildren].
  destruct (FindGUID prof ("login-" +:+ source)) as [iProfile|] eqn:Hfind; [|eauto].
  unfold generateTemplate.
  destruct (templateParse _) as [t|] eqn:Ht; [|eauto].
  destruct Hnot. right. eauto.
Qed.

Lemma entryOk_dec prof command entry :
  entryOk templateParse prof command entry ∨
  ¬ entryOk templateParse prof command entry.
Proof.
  unfold entryOk. destruct entry as [source [|p rest]]; cbn [fst snd]; [by left; left|].
  destruct (FindGUID prof ("login-" +:+ source)) as [iProfile|];
    [|right; intros [?|[[? ?] _]]; done].
  destruct (templateParse _) as [t|];
    [left; right; eauto|right; intros [?|[_ [? ?]]]; done].
Qed.

Lemma commandsOfEntries_blocks prof command ret0 entries :
  Forall (entryOk templateParse prof command) entries →
  commandsOfEntries templateParse prof command ret0 entries
  = Ok (ret0 ++ concat (blockOf templateParse prof command <$> entries)).
Proof.
  intros Hall. revert ret0.
  induction Hall as [|[source profiles] entries Hok _ IH]; intros ret0.
  - by rewrite app_nil_r.
  - cbn [commandsOfEntries]. rewrite commandsOfChildren_block by done.
    rewrite IH, fmap_cons. cbn [concat]. by rewrite app_assoc.
Qed.

Lemma commandsOfEntries_panics prof command ret0 entries :
  ¬ Forall (entryOk templateParse prof command) entries →
  ∃ v, commandsOfEntries templateParse prof command ret0 entries = Panicked v.
Proof.
  revert ret0. induction entries as [|[source profiles] entries IH]; intros ret0 Hnot.
  { destruct Hnot. constructor. }
  cbn [commandsOfEntries].
  destruct (entryOk_dec prof command (source, profiles)) as [Hok|Hbad].
  - rewrite commandsOfChildren_block by done.
    apply IH. intros Hall. apply Hnot. by constructor.
  - destruct (commandsOfChildren_panics prof command source ret0 profiles Hbad)
      as [v ->]. eauto.
Qed.
End BlockFacts.

Lemma Forall_entryOk_dec templateParse (prof : list Profile) (command : string)
    (entries : list (string * list string)) :
  Forall (entryOk templateParse prof command) entries ∨
  ¬ Forall (entryOk templateParse prof command) entries.
Proof.
  induction entries as [|entry entries [IH|IH]].
  - left. constructor.
  - destruct (entryOk_dec templateParse prof command entry) as [Hok|Hbad].
    + left. by constructor.
    + right. by intros [? _]%Forall_cons.
  - right. by intros [_ ?]%Forall_cons.
Qed.

(** X6. The order in which the entries of the tree are visited does
    not change what [generateCommands] does: it panics in every order
    or in none, and when it returns, the result is, entry by entry,
    the login command of the parent without its sleep fallback
    followed by one command per child, so two runs return the same
    commands up to the order of the entries. *)
Theorem commands_do_not_depend_on_order
    (templateParse : string → option (string → option string → string))
    (prof : list Profile) (command : string) (r1 r2 : Result (list string)) :
  generateCommands templateParse prof command r1 →
  generateCommands templateParse prof command r2 →
  match r1, r2 with
  | Ok c1, Ok c2 =>
      c1 ≡ₚ c2 ∧
      ∃ entries, entries ≡ₚ map_to_list (ProfileTree prof) ∧
                 c1 = concat (blockOf templateParse prof command <$> entries)
  | Panicked _, Panicked _ => True
  | _, _ => False
  end.
Proof.
  intros (e1 & Hp1 & <-) (e2 & Hp2 & <-).
  destruct (Forall_entryOk_dec templateParse prof command e1) as [Hok|Hbad].
  - assert (Hok2 : Forall (entryOk templateParse prof command) e2)
      by (by rewrite Hp2, <- Hp1).
    rewrite !commandsOfEntries_blocks by done. cbn [app]. split.
    + by rewrite Hp1, Hp2.
    + by exists e1.
  - assert (Hbad2 : ¬ Forall (entryOk templateParse prof command) e2)
      by (by rewrite Hp2, <- Hp1).
    destruct (commandsOfEntries_panics templateParse prof command [] e1 Hbad) as [v1 ->].
    by destruct (commandsOfEntries_panics templateParse prof command [] e2 Hbad2)
      as [v2 ->].
Qed.

Lemma commands_do_not_depend_on_order_witness :
  [ "bash -c 'login'"; "-dev" ] ≡ₚ [ "bash -c 'login'"; "-dev" ] ∧
  ∃ entries, entries ≡ₚ map_to_list (ProfileTree family) ∧
             [ "bash -c 'login'"; "-dev" ]
             = concat (blockOf (λ _, Some (λ profile _, profile)) family "aws s3 ls"
                         <$> entries).
Proof.
  apply (commands_do_not_depend_on_order (λ _, Some (λ profile _, profile))
           family "aws s3 ls" (Ok [ "bash -c 'login'"; "-dev" ])
           (Ok [ "bash -c 'login'"; "-dev" ])).
  - exists (map_to_list (ProfileTree family)). split; [done|]. by vm_compute.
  - exists (map_to_list (ProfileTree family)). split; [done|]. by vm_compute.
Defined.

(** ** The profiles of the key chain *)

Lemma keychainProfiles_names (k : KeyChain) (accounts : list string) :
  Name <$> keychainProfiles k accounts = (λ a, "custom/" +:+ a) <$> accounts.
Proof. induction accounts as [|a accounts IH]; [done|]. cbn. by f_equal. Qed.

Lemma custom_name_inj (a b : string) : "custom/" +:+ a = "custom/" +:+ b → a = b.
Proof. cbv [String.append]. by intros [= ->]. Qed.

Lemma merge_silent_iff (l : list Profile) :
  (mergeLog (merge l) = []) ↔ NoDup (Name <$> l).
Proof.
  split.
  - intros Hlog. pose proof (merge_partition l) as Hp.
    rewrite Hlog, fmap_nil, app_nil_r in Hp. rewrite Hp. apply merge_NoDup.
  - intros Hnd. rewrite merge_log, duplicateNames_nil; done.
Qed.

(** X7. The key chain gives one profile per account, named [custom/]
    followed by the account, with the chord [0x61-0x80000] bound to the
    command that reads the secret of that account.  None of the names
    is [default-profile]; the merge loop keeps all of these profiles
    without a warning exactly when no account is listed twice. *)
Theorem keychain_profiles_survive_merge (k : KeyChain) (accounts : list string) :
  Name <$> keychainProfiles k accounts = (λ a, "custom/" +:+ a) <$> accounts ∧
  Forall2 (λ a p,
     KeyboardMaps p !! "0x61-0x80000"
     = Some {| Action := 12;
               Text := "eval $(/usr/bin/security find-generic-password  -s "
                       +:+ Service k +:+ " -w -a " +:+ a +:+ ")" |})
    accounts (keychainProfiles k accounts) ∧
  (DefaultProfile ∉ (Name <$> keychainProfiles k accounts)) ∧
  ((mergeLog (merge (keychainProfiles k accounts)) = []) ↔ NoDup accounts) ∧
  (NoDup accounts →
   uniqProf (merge (keychainProfiles k accounts)) = keychainProfiles k accounts).
Proof.
  split_and!.
  - apply keychainProfiles_names.
  - induction accounts as [|a accounts IH]; [constructor|].
    cbn [keychainProfiles map]. constructor; [|exact IH].
    cbn. apply lookup_insert_eq.
  - rewrite keychainProfiles_names. intros (a & Ha & _)%list_elem_of_fmap.
    cbv [String.append DefaultProfile] in Ha. discriminate Ha.
  - rewrite merge_silent_iff, keychainProfiles_names. split.
    + apply NoDup_fmap_1.
    + apply NoDup_fmap_2. intros a b. apply custom_name_inj.
  - intros Hnd. rewrite merge_uniq. apply firstOccurrences_id.
    rewrite keychainProfiles_names. apply NoDup_fmap_2; [|done].
    intros a b. apply custom_name_inj.
Qed.

(** ** Discovery, one scope at a time *)

Section LoopFacts.
Variables (s : Scope) (a : Account).

Lemma instanceFound_true (ids : gmap string string) (id : string) :
  instanceFound ids id = true ↔ is_Some (ids !! id).
Proof. unfold instanceFound. apply bool_decide_eq_true. Qed.

Lemma instanceFound_false (ids : gmap string string) (id : string) :
  instanceFound ids id = false ↔ ids !! id = None.
Proof.
  unfold instanceFound. rewrite bool_decide_eq_false. symmetry. apply eq_None_not_Some.
Qed.

Lemma instanceLoop_known (ret0 : list Profile) (ids : gmap string string)
    (todo : list string) :
  Forall (λ id, is_Some (ids !! id)) todo →
  instanceLoop s a ret0 ids todo = Ok (ret0, ids).
Proof.
  induction 1 as [|id rest Hid _ IH]; [done|].
  cbn [instanceLoop]. apply instanceFound_true in Hid. by rewrite Hid.
Qed.

Lemma instanceLoop_accounts (todo : list string) (ret0 : list Profile)
    (ids : gmap string string) (r : list Profile) (ids' : gmap string string) :
  instanceLoop s a ret0 ids todo = Ok (r, ids') →
  dom ids' = dom ids ∪ list_to_set todo ∧
  (∀ k v, ids !! k = Some v → ids' !! k = Some v) ∧
  ∃ new, r = ret0 ++ new ∧ size ids' = size ids + length new.
Proof.
  revert ret0 ids. induction todo as [|id rest IH]; intros ret0 ids; cbn [instanceLoop].
  - intros [= <- <-]. split_and!; [set_solver|done|].
    exists []. by rewrite app_nil_r, Nat.add_0_r.
  - destruct (instanceFound ids id) eqn:Hfound.
    + intros (Hdom & Hold & Hnew)%IH. split_and!; [|done..].
      apply instanceFound_true, elem_of_dom in Hfound. set_solver.
    + destruct (emitInstance s a id) as [[profile name]|v]; [|done].
      apply instanceFound_false in Hfound.
      intros (Hdom & Hold & new & -> & Hsize)%IH. split_and!.
      * rewrite Hdom, dom_insert_L. set_solver.
      * intros k v Hk. apply Hold. rewrite lookup_insert_ne; [done|]. congruence.
      * exists (profile :: new). rewrite <- app_assoc. split; [done|].
        rewrite Hsize, map_size_insert_None by done. cbn. lia.
Qed.
End LoopFacts.

(** X8. When [generateForProfile] returns, every entry that was in
    the accumulator is still there, the accumulator has grown by as
    many entries as profiles were returned, and, when the scope got to
    its loop, the keys of the accumulator are the old keys and the
    instances that the scope lists. *)
Theorem generateForProfile_accounts (s : Scope) (ids : gmap string string)
    (r : list Profile) (ids' : gmap string string) :
  generateForProfile s ids = Ok (r, ids') →
  (∀ k v, ids !! k = Some v → ids' !! k = Some v) ∧
  size ids' = size ids + length r ∧
  (beforeLoop s = Ok None → r = [] ∧ ids' = ids) ∧
  (∀ a todo, beforeLoop s = Ok (Some (a, todo)) →
             dom ids' = dom ids ∪ list_to_set todo).
Proof.
  unfold generateForProfile.
  destruct (beforeLoop s) as [[[a todo]|]|v]; [| |done].
  - intros (Hdom & Hold & new & Hr & Hsize)%instanceLoop_accounts.
    cbn in Hr. subst r. split_and!; [done|done|done|].
    by intros ? ? [= <- <-].
  - intros [= <- <-]. split_and!; [done|cbn; lia|done|done].
Qed.

Lemma generateForProfile_accounts_witness :
  (∀ k v, (∅ : gmap string string) !! k = Some v →
          ({[ "i-123" := "web" ]} : gmap string string) !! k = Some v) ∧
  size ({[ "i-123" := "web" ]} : gmap string string)
  = size (∅ : gmap string string)
    + length [instanceProfile (scopeSeeingWeb "p1") webAccount "web"] ∧
  (beforeLoop (scopeSeeingWeb "p1") = Ok None →
   [instanceProfile (scopeSeeingWeb "p1") webAccount "web"] = [] ∧
   ({[ "i-123" := "web" ]} : gmap string string) = ∅) ∧
  (∀ a todo, beforeLoop (scopeSeeingWeb "p1") = Ok (Some (a, todo)) →
             dom ({[ "i-123" := "web" ]} : gmap string string)
             = dom (∅ : gmap string string) ∪ list_to_set todo).
Proof.
  apply (generateForProfile_accounts (scopeSeeingWeb "p1") ∅).
  by vm_compute.
Defined.

(** X9. An instance that is in the accumulator is skipped before its
    description is read: a scope all of whose instances are known
    returns no profile and leaves the accumulator as it is, whatever
    [DescribeInstances] answers.  For an instance that is not in the
    accumulator, a description without output is a panic. *)
Theorem known_instances_are_skipped (s : Scope) (a : Account)
    (ret0 : list Profile) (ids : gmap string string) :
  (∀ todo, Forall (λ id, is_Some (ids !! id)) todo →
           instanceLoop s a ret0 ids todo = Ok (ret0, ids)) ∧
  (∀ id rest, ids !! id = None → output (describeInstances s id) = None →
              instanceLoop s a ret0 ids (id :: rest)
              = Panicked "invalid memory address or nil pointer dereference").
Proof.
  split.
  - intros todo. apply instanceLoop_known.
  - intros id rest Hnew Hnil. cbn [instanceLoop].
    apply instanceFound_false in Hnew. rewrite Hnew.
    unfold emitInstance, firstInstanceTags. by rewrite Hnil.
Qed.

(** X10. The name of an instance is the value of its last [Name] tag,
    and the empty string when it has no such tag. *)
Theorem name_is_last_Name_tag (tags : list Tag) :
  ((∀ tag, tag ∈ tags → Key tag ≠ "Name") → nameOfTags tags = "") ∧
  (∀ before value after,
     tags = before ++ mkTag "Name" value :: after →
     (∀ tag, tag ∈ after → Key tag ≠ "Name") →
     nameOfTags tags = value).
Proof.
  assert (Hkeep : ∀ after name,
            (∀ tag, tag ∈ after → Key tag ≠ "Name") →
            foldl (λ name tag, if decide (Key tag = "Name") then Value tag else name)
              name after = name).
  { induction after as [|tag after IH]; intros name Hno; [done|].
    cbn. rewrite decide_False by (apply Hno; left).
    apply IH. intros t Ht. apply Hno. by right. }
  split.
  - intros Hno. by apply Hkeep.
  - intros before value after -> Hno. unfold nameOfTags.
    rewrite foldl_app. cbn. by apply Hkeep.
Qed.

(** X11. Two instances with the same [Name] tag, seen in the same
    region under the same account alias, get profiles of the same name,
    whichever scopes saw them: the merge loop keeps the first of the
    two and reports the second as a duplicate. *)
Theorem instances_named_alike_collapse (s1 s2 : Scope) (a1 a2 : Account)
    (name : string) :
  accountAlias a1 = accountAlias a2 →
  scopeRegion s1 = scopeRegion s2 →
  uniqProf (merge [instanceProfile s1 a1 name; instanceProfile s2 a2 name])
  = [instanceProfile s1 a1 name] ∧
  mergeLog (merge [instanceProfile s1 a1 name; instanceProfile s2 a2 name])
  = [mkWarning "duplicate profile"
       (accountAlias a1 +:+ ":" +:+ scopeRegion s1 +:+ ":ssm-" +:+ name)].
Proof.
  intros Ha Hr.
  assert (Hname : Name (instanceProfile s2 a2 name) = Name (instanceProfile s1 a1 name)).
  { cbn. by rewrite Ha, Hr. }
  assert (H1 : merge [instanceProfile s1 a1 name]
               = {| uniqProf := [instanceProfile s1 a1 name];
                    existingProfiles := {[ Name (instanceProfile s1 a1 name) ]} ∪ ∅;
                    mergeLog := [] |}).
  { unfold merge. cbn [foldl]. unfold mergeStep. cbn [existingProfiles mergeInit].
    by rewrite decide_False by set_solver. }
  change [instanceProfile s1 a1 name; instanceProfile s2 a2 name]
    with ([instanceProfile s1 a1 name] ++ [instanceProfile s2 a2 name]).
  rewrite merge_snoc, H1. unfold mergeStep. cbn [existingProfiles uniqProf mergeLog].
  rewrite decide_True by (rewrite Hname; set_solver).
  cbn [uniqProf mergeLog]. by rewrite Hname.
Qed.

Lemma instances_named_alike_collapse_witness :
  uniqProf (merge [instanceProfile (scopeSeeingWeb "p1") webAccount "web";
                   instanceProfile (scopeSeeingWeb "p2") webAccount "web"])
  = [instanceProfile (scopeSeeingWeb "p1") webAccount "web"] ∧
  mergeLog (merge [instanceProfile (scopeSeeingWeb "p1") webAccount "web";
                   instanceProfile (scopeSeeingWeb "p2") webAccount "web"])
  = [mkWarning "duplicate profile"
       (accountAlias webAccount +:+ ":" +:+ scopeRegion (scopeSeeingWeb "p1")
        +:+ ":ssm-" +:+ "web")].
Proof.
  apply (instances_named_alike_collapse (scopeSeeingWeb "p1") (scopeSeeingWeb "p2")
           webAccount webAccount "web"); reflexivity.
Defined.

(** ** The fan-out, step by step *)

Section StepFacts.
Implicit Types (st : Fanout) (w : Worker) (i : nat).

Lemma step_noCrash st i w :
  noCrash st → workers st !! i = Some w →
  step st i
  = let '(w', ids, out) := stepWorker w (instances st) (ret st) in
    mkFanout ids out (<[ i := w' ]> (workers st)).
Proof. unfold noCrash, step. by intros -> ->. Qed.

Lemma noCrash_insert (l : list Worker) i w :
  existsb crashed l = false → crashed w = false →
  existsb crashed (<[ i := w ]> l) = false.
Proof.
  revert i. induction l as [|x l IH]; intros i Hl Hw; [done|].
  cbn in Hl. apply orb_false_elim in Hl as [Hx Hl].
  destruct i; cbn; [by rewrite Hw|]. by rewrite Hx, IH.
Qed.

Lemma step_finished st i w :
  workers st !! i = Some w → wPc w = Finished → step st i = st.
Proof.
  intros Hw Hpc. unfold step. destruct (existsb crashed (workers st)); [done|].
  rewrite Hw. unfold stepWorker. rewrite Hpc.
  rewrite list_insert_id by done. by destruct st.
Qed.

Lemma iter_finished n st i w :
  workers st !! i = Some w → wPc w = Finished →
  Nat.iter n (λ st, step st i) st = st.
Proof.
  intros Hw Hpc. induction n as [|n IH]; [done|].
  rewrite Nat.iter_succ, IH. by eapply step_finished.
Qed.

(** A worker at the head of its loop, left alone, does what
    [instanceLoop] does and then hands its profiles over. *)
Lemma run_loop i (todo : list string) : ∀ (n : nat) st w r ids,
  noCrash st → workers st !! i = Some w → wPc w = AtLoop todo →
  instanceLoop (wScope w) (wAccount w) (wRet w) (instances st) todo = Ok (r, ids) →
  (2 * List.length todo + 2 ≤ n)%nat →
  Nat.iter n (λ st, step st i) st
  = mkFanout ids (ret st ++ r)
      (<[ i := mkWorker (wScope w) (wAccount w) r Finished ]> (workers st)).
Proof.
  induction todo as [|id rest IH]; intros n st w r ids Hnc Hw Hpc Hloop Hn.
  - cbn in Hloop. injection Hloop as <- <-.
    destruct n as [|[|n]]; [cbn in Hn; lia..|].
    rewrite !Nat.iter_succ_r.
    rewrite (step_noCrash st i w) by done. unfold stepWorker at 1. rewrite Hpc.
    set (st1 := mkFanout _ _ _).
    assert (Hw1 : workers st1 !! i
                  = Some (mkWorker (wScope w) (wAccount w) (wRet w) AtReturn)).
    { cbn. apply list_lookup_insert_eq. by eapply lookup_lt_Some. }
    assert (Hnc1 : noCrash st1) by (by apply noCrash_insert).
    rewrite (step_noCrash st1 i _ Hnc1 Hw1).
    unfold stepWorker at 1. cbn [wPc wScope wAccount wRet].
    rewrite copy_onto_itself. cbn [st1 instances ret workers].
    rewrite list_insert_insert_eq.
    apply (iter_finished n _ i (mkWorker (wScope w) (wAccount w) (wRet w) Finished)).
    + cbn. apply list_lookup_insert_eq. by eapply lookup_lt_Some.
    + done.
  - cbn [instanceLoop] in Hloop. cbn [length] in Hn.
    destruct n as [|n]; [lia|]. rewrite Nat.iter_succ_r.
    rewrite (step_noCrash st i w) by done. unfold stepWorker at 1. rewrite Hpc.
    destruct (instanceFound (instances st) id) eqn:Hfound.
    + set (w1 := mkWorker (wScope w) (wAccount w) (wRet w) (AtLoop rest)).
      set (st1 := mkFanout _ _ _).
      rewrite (IH n st1 w1 r ids); cbn [st1 w1 instances ret workers wScope wAccount wRet wPc].
      * by rewrite list_insert_insert_eq.
      * by apply noCrash_insert.
      * apply list_lookup_insert_eq. by eapply lookup_lt_Some.
      * done.
      * done.
      * lia.
    + set (w1 := mkWorker (wScope w) (wAccount w) (wRet w) (AtEmit id rest)).
      set (st1 := mkFanout _ _ _).
      destruct (emitInstance (wScope w) (wAccount w) id) as [[profile name]|v] eqn:Hemit;
        [|done].
      destruct n as [|n]; [lia|]. rewrite Nat.iter_succ_r.
      assert (Hw1 : workers st1 !! i = Some w1).
      { cbn. apply list_lookup_insert_eq. by eapply lookup_lt_Some. }
      assert (Hnc1 : noCrash st1) by (by apply noCrash_insert).
      rewrite (step_noCrash st1 i w1 Hnc1 Hw1).
      unfold stepWorker at 1. cbn [w1 wPc wScope wAccount wRet]. rewrite Hemit.
      cbn [st1 instances ret workers]. rewrite list_insert_insert_eq.
      set (w2 := mkWorker (wScope w) (wAccount w) (wRet w ++ [profile]) (AtLoop rest)).
      set (st2 := mkFanout _ _ _).
      rewrite (IH n st2 w2 r ids); cbn [st2 w2 instances ret workers wScope wAccount wRet wPc].
      * by rewrite list_insert_insert_eq.
      * by apply noCrash_insert.
      * apply list_lookup_insert_eq. by eapply lookup_lt_Some.
      * done.
      * done.
      * lia.
Qed.
End StepFacts.

Section OneAfterAnother.
Implicit Types (scopes rest : list Scope).

Local Abbreviation nextScope :=
  (λ (acc : Result (list Profile * gmap string string)) (s : Scope),
     match acc with
     | Panicked v => Panicked v
     | Ok (profiles, ids) =>
         match generateForProfile s ids with
         | Panicked v => Panicked v
         | Ok (more, ids') => Ok (profiles ++ more, ids')
         end
     end).

Lemma nextScope_panicked rest v : foldl nextScope (Panicked v) rest = Panicked v.
Proof. induction rest as [|s rest IH]; [done|]. exact IH. Qed.

Lemma existsb_crashed_finished (finished0 : list Worker) :
  Forall (λ w, wPc w = Finished) finished0 → existsb crashed finished0 = false.
Proof.
  induction 1 as [|w finished0 Hw _ IH]; [done|].
  cbn. unfold crashed at 1. by rewrite Hw.
Qed.

Lemma find_crashed_finished (finished0 : list Worker) :
  Forall (λ w, wPc w = Finished) finished0 → find crashed finished0 = None.
Proof.
  induction 1 as [|w finished0 Hw _ IH]; [done|].
  cbn. unfold crashed at 1. by rewrite Hw.
Qed.

(** The workers run one after another, from the state in which the
    first [length finished0] of them are finished. *)
Lemma drain_in_order rest : ∀ (finished0 : list Worker) out ids out' ids',
  Forall (λ w, wPc w = Finished) finished0 →
  foldl nextScope (Ok (out, ids)) rest = Ok (out', ids') →
  ∃ done', Forall (λ w, wPc w = Finished) done' ∧
    foldl runToEnd (mkFanout ids out (finished0 ++ map spawn rest))
      (seq (length finished0) (length rest))
    = mkFanout ids' out' done'.
Proof.
  induction rest as [|s rest IH]; intros finished0 out ids out' ids' Hdone Hfold.
  { cbn in Hfold. injection Hfold as <- <-. exists finished0.
    split; [done|]. cbn. by rewrite app_nil_r. }
  cbn [foldl] in Hfold.
  destruct (generateForProfile s ids) as [[more ids1]|v] eqn:Hgen;
    [|by rewrite nextScope_panicked in Hfold].
  assert (Hrest : existsb crashed (map spawn rest) = false).
  { clear -Hfold. revert Hfold. generalize (out ++ more) as o. revert ids1.
    induction rest as [|s' rest IHr]; intros ids1 o Hfold; [done|].
    cbn [foldl] in Hfold. cbn [map existsb].
    destruct (generateForProfile s' ids1) as [[more' ids2]|v] eqn:Hgen';
      [|by rewrite nextScope_panicked in Hfold].
    rewrite (IHr _ _ Hfold), orb_false_r.
    unfold generateForProfile in Hgen'. unfold spawn, crashed.
    by destruct (beforeLoop s') as [[[? ?]|]|]. }
  cbn [length seq foldl map].
  set (st := mkFanout ids out (finished0 ++ spawn s :: map spawn rest)).
  assert (Hw : workers st !! length finished0 = Some (spawn s)).
  { cbn. by rewrite list_lookup_middle. }
  assert (Hnc : noCrash st).
  { unfold noCrash. cbn. rewrite existsb_app, existsb_crashed_finished by done.
    cbn. rewrite Hrest, orb_false_r.
    unfold generateForProfile in Hgen. unfold spawn, crashed.
    by destruct (beforeLoop s) as [[[? ?]|]|]. }
  assert (Hrun : ∃ w', wPc w' = Finished ∧
            runToEnd st (length finished0)
            = mkFanout ids1 (out ++ more) ((finished0 ++ [w']) ++ map spawn rest)).
  { unfold runToEnd. rewrite Hw.
    unfold generateForProfile in Hgen.
    destruct (beforeLoop s) as [[[a todo]|]|] eqn:Hbefore; [| |done].
    - assert (Hspawn : spawn s = mkWorker s a [] (AtLoop todo))
        by (unfold spawn; by rewrite Hbefore).
      rewrite Hspawn in Hw |- *.
      exists (mkWorker s a more Finished). split; [done|].
      unfold remaining. cbn [wPc].
      rewrite (run_loop (length finished0) todo _ st (mkWorker s a [] (AtLoop todo))
                 more ids1 Hnc Hw eq_refl Hgen (le_n _)).
      subst st. cbn [instances ret workers wScope wAccount].
      rewrite <- (Nat.add_0_r (length finished0)) at 1.
      rewrite insert_app_r. cbn. by rewrite <- app_assoc.
    - assert (Hspawn : spawn s = mkWorker s (mkAccount "" "") [] AtReturn)
        by (unfold spawn; by rewrite Hbefore).
      rewrite Hspawn in Hw |- *.
      injection Hgen as <- <-.
      exists (mkWorker s (mkAccount "" "") [] Finished). split; [done|].
      unfold remaining. cbn [wPc Nat.iter nat_rect].
      rewrite (step_noCrash st _ _ Hnc Hw). unfold stepWorker.
      cbn [wPc wScope wAccount wRet].
      rewrite copy_onto_itself. subst st. cbn [instances ret workers].
      rewrite <- (Nat.add_0_r (length finished0)) at 1.
      rewrite insert_app_r. cbn. by rewrite <- app_assoc. }
  destruct Hrun as (w' & Hfin & ->).
  destruct (IH (finished0 ++ [w']) (out ++ more) ids1 out' ids') as (done' & Hdone' & Heq).
  - apply Forall_app. split; [done|]. by constructor.
  - done.
  - exists done'. split; [done|].
    rewrite length_app in Heq. cbn in Heq. rewrite Nat.add_1_r in Heq. exact Heq.
Qed.
End OneAfterAnother.

Lemma oneAfterAnother_size (scopes : list Scope) (r : list Profile)
    (ids : gmap string string) :
  oneAfterAnother scopes = Ok (r, ids) → length r = size ids.
Proof.
  unfold oneAfterAnother. revert r ids.
  induction scopes as [|s scopes IH] using rev_ind; intros r ids.
  { by intros [= <- <-]. }
  rewrite foldl_snoc.
  destruct (foldl _ _ scopes) as [[r0 ids0]|v]; [|done].
  specialize (IH r0 ids0 eq_refl).
  destruct (generateForProfile s ids0) as [[more ids1]|v] eqn:Hgen; [|done].
  intros [= <- <-]. unfold generateForProfile in Hgen.
  destruct (beforeLoop s) as [[[a todo]|]|]; [| |done].
  - apply instanceLoop_accounts in Hgen as (_ & _ & new & Hr & Hsize).
    cbn in Hr. subst more. rewrite length_app. lia.
  - injection Hgen as <- <-. rewrite length_app. cbn. lia.
Qed.

(** X12. When the goroutines run one after another, [Generate]
    returns what [generateForProfile] returns scope by scope on the
    growing accumulator, and then the list has one profile for every
    instance in the accumulator. *)
Theorem sequential_fanout_is_scope_by_scope (scopes : list Scope)
    (r : list Profile) (ids : gmap string string) :
  oneAfterAnother scopes = Ok (r, ids) →
  Generate (Some scopes) [] = Ok r ∧
  instances (fanout scopes []) = ids ∧
  length r = size ids.
Proof.
  intros Hseq.
  destruct (drain_in_order scopes [] [] ∅ r ids (List.Forall_nil _) Hseq)
    as (done' & Hdone & Heq).
  cbn [app length] in Heq.
  unfold Generate, fanout. cbn [foldl]. rewrite Heq. cbn [instances].
  split_and!; [|done|by eapply oneAfterAnother_size].
  unfold fanoutResult. cbn [workers ret]. by rewrite find_crashed_finished.
Qed.

Lemma sequential_fanout_is_scope_by_scope_witness :
  Generate (Some [scopeSeeingWeb "p1"; scopeSeeingWeb "p2"]) []
  = Ok [instanceProfile (scopeSeeingWeb "p1") webAccount "web"] ∧
  instances (fanout [scopeSeeingWeb "p1"; scopeSeeingWeb "p2"] [])
  = {[ "i-123" := "web" ]} ∧
  length [instanceProfile (scopeSeeingWeb "p1") webAccount "web"]
  = size ({[ "i-123" := "web" ]} : gmap string string).
Proof.
  apply (sequential_fanout_is_scope_by_scope
           [scopeSeeingWeb "p1"; scopeSeeingWeb "p2"]).
  by vm_compute.
Defined.

(** ** Round trips through the output file and the cache *)








(** ** The login command of a parent *)





(** ** The built-in profile and the key chain *)

(** The built-in profile is kept, with the fields it was made with,
    when no candidate before it has its name. *)
Lemma builtin_is_kept (f : Flags) (w : World) (accounts : list string)
    (e : Event) (c : list Profile) :
  keychainAccounts w = Some accounts →
  DefaultProfile ∉ (Name <$> (awsProfiles w ++ k8sProfiles w (dryRun f)
                              ++ keychainProfiles keyChain accounts)) →
  e ∈ fst (generateCmd f w) → collectionOf e = Some c →
  ∃ p, p ∈ c ∧ Name p = DefaultProfile ∧ GUID p = GUID defaultProfile ∧
       Command p = Command defaultProfile ∧ Config p = Config defaultProfile.
Proof.
  intros Hacc Hfresh He Hc.
  destruct (generateCmd_collections f w e c He Hc) as (prof & Hg & Hcase).
  apply gather_default in Hg as (accounts' & after & Hacc' & Hprof).
  rewrite Hacc in Hacc'. injection Hacc' as <-.
  cbn zeta in Hcase.
  set (h := λ p : Profile,
         {| Name := Name p; GUID := GUID p; Command := Command p;
            Config := Config p;
            KeyboardMaps := keyboardMapsFor w prof p;
            Triggers := triggersFor w (UpdateKeyboardMaps w prof)
                          {| Name := Name p; GUID := GUID p; Command := Command p;
                             Config := Config p;
                             KeyboardMaps := keyboardMapsFor w prof p;
                             Triggers := Triggers p |} |}).
  assert (Haug : UpdateAWSSmartSelectionRules w (UpdateKeyboardMaps w prof)
                 = h <$> prof).
  { unfold UpdateAWSSmartSelectionRules.
    set (tr := triggersFor w (UpdateKeyboardMaps w prof)).
    unfold UpdateKeyboardMaps. rewrite List.map_map. reflexivity. }
  assert (Hin : h defaultProfile ∈
            uniqProf (merge (UpdateAWSSmartSelectionRules w
                               (UpdateKeyboardMaps w prof)))).
  { rewrite merge_uniq, Haug, Hprof, fmap_app, fmap_cons.
    apply firstOccurrences_keeps.
    rewrite <- list_fmap_compose. exact Hfresh. }
  exists (h defaultProfile). split_and!; try done.
  destruct Hcase as [->| ->]; [done|]. by rewrite sortSlice_perm.
Qed.

(** X16. The profiles of the key chain never take the place of the
    built-in profile: when neither the AWS configuration nor the
    clusters yield a profile named [default-profile], every collection
    that a run hands to the outside holds the built-in profile, with
    the identity key, command and settings it was made with. *)
Theorem builtin_survives_keychain (f : Flags) (w : World) (e : Event)
    (c : list Profile) :
  DefaultProfile ∉ (Name <$> (awsProfiles w ++ k8sProfiles w (dryRun f))) →
  e ∈ fst (generateCmd f w) → collectionOf e = Some c →
  ∃ p, p ∈ c ∧ Name p = DefaultProfile ∧ GUID p = GUID defaultProfile ∧
       Command p = Command defaultProfile ∧ Config p = Config defaultProfile.
Proof.
  intros Hfresh He Hc.
  destruct (generateCmd_collections f w e c He Hc) as (prof & Hg & _).
  apply gather_default in Hg as (accounts & _ & Hacc & _).
  apply (builtin_is_kept f w accounts e c Hacc); [|done..].
  rewrite app_assoc, fmap_app, elem_of_app. intros [Hin|Hin]; [done|].
  rewrite keychainProfiles_names in Hin.
  apply list_elem_of_fmap in Hin as (a & Ha & _).
  cbv [String.append DefaultProfile] in Ha. discriminate Ha.
Qed.

Lemma builtin_survives_keychain_witness :
  ∃ p, p ∈ [defaultProfile; NewProfile "vim" ∅] ∧ Name p = DefaultProfile ∧
       GUID p = GUID defaultProfile ∧ Command p = Command defaultProfile ∧
       Config p = Config defaultProfile.
Proof.
  apply (builtin_survives_keychain printFlags (quietWorld [])
           (JSONPrinted [defaultProfile; NewProfile "vim" ∅])).
  - cbn. apply not_elem_of_nil.
  - vm_compute. do 10 right. left.
  - reflexivity.
Defined.

(** ** The profiles of the AWS configuration *)

Lemma add_names (os : AwsOS) (p : list Profile) (name : string)
    (config : gmap string string) (p' : list Profile) :
  add os p name config = Some p' →
  Name <$> p'
  = (Name <$> p) ++ match config !! "source_profile" with
                    | Some _ => [name]
                    | None => [name; "login-" +:+ name]
                    end.
Proof.
  unfold add, Add. destruct (userCurrent os) as [username|]; [|done].
  rewrite lookup_insert_ne by done.
  destruct (config !! "source_profile") as [source|].
  - intros [= <-]. by rewrite fmap_app.
  - destruct (loginCmd _ _ _) as [cmd|]; [|done].
    intros [= <-]. rewrite !fmap_app, <- app_assoc. done.
Qed.

Lemma Profiles_names (os : AwsOS) (prefix : string)
    (sections : list (string * gmap string string)) (p : list Profile) :
  Profiles os prefix (Some sections) = Some p →
  Name <$> p = concat (sectionNames prefix <$> sections).
Proof.
  unfold Profiles. revert p.
  induction sections as [|[name section] sections IH] using rev_ind; intros p.
  { by intros [= <-]. }
  rewrite foldl_snoc, fmap_app, concat_app. cbn [fmap list_fmap concat].
  destruct (foldl _ _ sections) as [p0|]; [|done].
  rewrite <- (IH p0 eq_refl). unfold sectionNames. cbn [fst snd].
  case_decide.
  - intros [= <-]. by rewrite !app_nil_r.
  - intros Hadd%add_names. by rewrite Hadd, app_nil_r.
Qed.

(** X17. [Profiles] gives, section by section in the order of the
    iteration, a profile named by the prefix, a dash and the section
    name without its [profile ] prefix, followed by a login profile
    when the section has no [source_profile]; the unnamed section
    gives nothing.  With the empty prefix that [generateCmd] passes,
    none of the names is [default-profile]. *)
Theorem aws_profiles_names (os : AwsOS) (prefix : string)
    (sections : list (string * gmap string string)) (p : list Profile) :
  Profiles os prefix (Some sections) = Some p →
  Name <$> p = concat (sectionNames prefix <$> sections) ∧
  (prefix = "" → DefaultProfile ∉ (Name <$> p)).
Proof.
  intros Hp. apply Profiles_names in Hp. split; [done|].
  intros ->. rewrite Hp. clear Hp.
  induction sections as [|[name section] sections IH]; [apply not_elem_of_nil|].
  rewrite fmap_cons. cbn [concat]. rewrite elem_of_app. intros [Hin|Hin]; [|done].
  unfold sectionNames in Hin. cbn [fst snd] in Hin.
  case_decide; [by apply elem_of_nil in Hin|].
  destruct (section !! "source_profile"); set_unfold;
    cbv [String.append DefaultProfile] in Hin; naive_solver.
Qed.

Lemma aws_profiles_names_witness :
  Name <$> [ NewProfile "-main"
               (<[ "Command" := "/usr/bin/env AWS_PROFILE=-main /usr/bin/login -fp user" ]> ∅);
             NewProfile "login--main" (<[ "Command" := "" ]> ∅);
             NewProfile "-dev"
               (<[ "Command" := "/usr/bin/env AWS_PROFILE=-dev /usr/bin/login -fp user" ]>
                  (<[ "source_profile" := "main" ]> ∅)) ]
  = concat (sectionNames "" <$> sampleSections) ∧
  ("" = "" →
   DefaultProfile ∉
     (Name <$> [ NewProfile "-main"
                   (<[ "Command" := "/usr/bin/env AWS_PROFILE=-main /usr/bin/login -fp user" ]> ∅);
                 NewProfile "login--main" (<[ "Command" := "" ]> ∅);
                 NewProfile "-dev"
                   (<[ "Command" := "/usr/bin/env AWS_PROFILE=-dev /usr/bin/login -fp user" ]>
                      (<[ "source_profile" := "main" ]> ∅)) ])).
Proof.
  apply (aws_profiles_names (mkAwsOS (Some "user") (λ _, None) (λ path, path) "")
           "" sampleSections).
  by vm_compute.
Defined.

(** ** Credential files of the new command *)

Lemma checkedExport_returns (file : string) (records : list (list string))
    (c1 c2 : nat) (line : string) :
  checkedExport file records c1 c2 = Returned line →
  cell records 0 c1 = Some "Access key ID" ∧
  cell records 0 c2 = Some "Secret access key" ∧
  ∃ access secret, cell records 1 c1 = Some access ∧
                   cell records 1 c2 = Some secret ∧
                   line = exportAWS access secret.
Proof.
  unfold checkedExport.
  destruct (cell records 0 c1) as [h1|]; [|done].
  case_decide as H1; [done|]. subst h1.
  destruct (cell records 0 c2) as [h2|]; [|done].
  case_decide as H2; [done|]. subst h2.
  destruct (cell records 1 c1) as [access|]; [|done].
  destruct (cell records 1 c2) as [secret|]; [|done].
  intros [= <-]. eauto 10.
Qed.

(** X18. [handleFile] returns a line only for a file whose name ends
    in [csv] and whose base name begins with [credentials] or with
    [accessKeys], whose first record has the two expected headers in
    the columns of that kind of file; the line exports the two cells
    of the second record in those columns. *)
Theorem handleFile_returns (filepathBase : string → string)
    (slurpCsv : string → option (list (list string))) (file line : string) :
  handleFile filepathBase slurpCsv file = Returned line →
  strHasSuffix file "csv" = true ∧
  ∃ records c1 c2,
    slurpCsv file = Some records ∧
    ((String.prefix "credentials" (filepathBase file) = true ∧ c1 = 2 ∧ c2 = 3) ∨
     (String.prefix "credentials" (filepathBase file) = false ∧
      String.prefix "accessKeys" (filepathBase file) = true ∧ c1 = 0 ∧ c2 = 1)) ∧
    cell records 0 c1 = Some "Access key ID" ∧
    cell records 0 c2 = Some "Secret access key" ∧
    ∃ access secret,
      cell records 1 c1 = Some access ∧ cell records 1 c2 = Some secret ∧
      line = "export AWS_ACCESS_KEY_ID=" +:+ access
             +:+ " AWS_SECRET_ACCESS_KEY=" +:+ secret.
Proof.
  unfold handleFile.
  destruct (String.prefix "credentials" (filepathBase file)) eqn:Hc;
    destruct (strHasSuffix file "csv") eqn:Hs; cbn [andb].
  - destruct (slurpCsv file) as [records|]; [|done].
    intros (H1 & H2 & Hrow)%checkedExport_returns.
    split; [done|]. exists records, 2, 3. eauto 10.
  - destruct (String.prefix "accessKeys" (filepathBase file)); done.
  - destruct (String.prefix "accessKeys" (filepathBase file)) eqn:Ha; cbn [andb]; [|done].
    destruct (slurpCsv file) as [records|]; [|done].
    intros (H1 & H2 & Hrow)%checkedExport_returns.
    split; [done|]. exists records, 0, 1. split; [done|]. split; [|done].
    right. done.
  - destruct (String.prefix "accessKeys" (filepathBase file)); done.
Qed.

Lemma handleFile_returns_witness :
  strHasSuffix "credentials.csv" "csv" = true ∧
  ∃ records c1 c2,
    Some [ ["User name"; "Password"; "Access key ID"; "Secret access key"];
           ["bob"; ""; "AKIA"; "s3cr3t"] ] = Some records ∧
    ((String.prefix "credentials" "credentials.csv" = true ∧ c1 = 2 ∧ c2 = 3) ∨
     (String.prefix "credentials" "credentials.csv" = false ∧
      String.prefix "accessKeys" "credentials.csv" = true ∧ c1 = 0 ∧ c2 = 1)) ∧
    cell records 0 c1 = Some "Access key ID" ∧
    cell records 0 c2 = Some "Secret access key" ∧
    ∃ access secret,
      cell records 1 c1 = Some access ∧ cell records 1 c2 = Some secret ∧
      "export AWS_ACCESS_KEY_ID=AKIA AWS_SECRET_ACCESS_KEY=s3cr3t"
      = "export AWS_ACCESS_KEY_ID=" +:+ access
        +:+ " AWS_SECRET_ACCESS_KEY=" +:+ secret.
Proof.
  apply (handleFile_returns (λ file, file)
           (λ _, Some [ ["User name"; "Password"; "Access key ID"; "Secret access key"];
                        ["bob"; ""; "AKIA"; "s3cr3t"] ])
           "credentials.csv").
  by vm_compute.
Defined.

(** X19. A credentials file with the right name and the right headers
    and no second record makes [handleFile] panic on the missing
    record, and so does a file without any record; neither ends with
    the message of a fatal error. *)
Theorem header_only_file_panics (filepathBase : string → string)
    (slurpCsv : string → option (list (list string))) (file : string)
    (c1 c2 : nat) :
  strHasSuffix file "csv" = true →
  (String.prefix "credentials" (filepathBase file) = true ∧ c1 = 2 ∧ c2 = 3) ∨
  (String.prefix "credentials" (filepathBase file) = false ∧
   String.prefix "accessKeys" (filepathBase file) = true ∧ c1 = 0 ∧ c2 = 1) →
  (slurpCsv file = Some [] → handleFile filepathBase slurpCsv file = PanicExit) ∧
  (∀ header, slurpCsv file = Some [header] →
             header !! c1 = Some "Access key ID" →
             header !! c2 = Some "Secret access key" →
             handleFile filepathBase slurpCsv file = PanicExit).
Proof.
  intros Hs Hkind. unfold handleFile. rewrite Hs.
  destruct Hkind as [(-> & -> & ->)|(-> & -> & -> & ->)]; cbn [andb]; split.
  - by intros ->.
  - intros header -> H1 H2. unfold checkedExport, cell. cbn [lookup list_lookup].
    rewrite H1, H2. rewrite !decide_False by (by intros ?). done.
  - by intros ->.
  - intros header -> H1 H2. unfold checkedExport, cell. cbn [lookup list_lookup].
    rewrite H1, H2. rewrite !decide_False by (by intros ?). done.
Qed.

Lemma header_only_file_panics_witness :
  ((λ _ : string, Some [ ["Access key ID"; "Secret access key"] ]) "accessKeys.csv"
   = Some [] →
   handleFile (λ file, file)
     (λ _, Some [ ["Access key ID"; "Secret access key"] ]) "accessKeys.csv"
   = PanicExit) ∧
  (∀ header,
     (λ _ : string, Some [ ["Access key ID"; "Secret access key"] ]) "accessKeys.csv"
     = Some [header] →
     header !! 0 = Some "Access key ID" →
     header !! 1 = Some "Secret access key" →
     handleFile (λ file, file)
       (λ _, Some [ ["Access key ID"; "Secret access key"] ]) "accessKeys.csv"
     = PanicExit).
Proof.
  apply (header_only_file_panics (λ file, file)
           (λ _, Some [ ["Access key ID"; "Secret access key"] ]) "accessKeys.csv" 0 1).
  - by vm_compute.
  - right. by vm_compute.
Defined.

(** ** Scopes that contribute nothing *)

Lemma oneAfterAnother_app (l1 l2 : list Scope) :
  oneAfterAnother (l1 ++ l2)
  = foldl (λ acc s,
             match acc with
             | Panicked v => Panicked v
             | Ok (profiles, ids) =>
                 match generateForProfile s ids with
                 | Panicked v => Panicked v
                 | Ok (more, ids') => Ok (profiles ++ more, ids')
                 end
             end) (oneAfterAnother l1) l2.
Proof. unfold oneAfterAnother. by rewrite foldl_app. Qed.

(** X20. A scope whose configuration cannot be loaded, whose caller
    identity cannot be resolved, or whose instances cannot be listed
    (the alias call having answered) returns no profile and leaves the
    accumulator as it is; such a scope among the others changes
    nothing of what the scopes give one after another, and so nothing
    of what [Generate] returns when the goroutines run in turn. *)
Theorem failing_scope_contributes_nothing (bad : Scope) (l1 l2 : list Scope)
    (ids : gmap string string) :
  is_Some (loadDefaultConfig bad) ∨
  is_Some (err (getCallerIdentity bad)) ∨
  output (getCallerIdentity bad) = None ∨
  (is_Some (output (listAccountAliases bad)) ∧
   is_Some (err (describeInstanceInformation bad))) →
  generateForProfile bad ids = Ok ([], ids) ∧
  oneAfterAnother (l1 ++ bad :: l2) = oneAfterAnother (l1 ++ l2) ∧
  ∀ r ids', oneAfterAnother (l1 ++ l2) = Ok (r, ids') →
            Generate (Some (l1 ++ bad :: l2)) [] = Ok r.
Proof.
  intros Hbad.
  assert (Hbefore : beforeLoop bad = Ok None).
  { unfold beforeLoop.
    destruct (loadDefaultConfig bad) as [e|]; [done|].
    destruct (err (getCallerIdentity bad)) as [e|]; [done|].
    destruct (output (getCallerIdentity bad)) as [account|]; [|done].
    destruct Hbad as [[? [=]]|[[? [=]]|[[=]|[[aliases Ha] [e He]]]]].
    rewrite Ha, He. done. }
  assert (Hgen : ∀ ids0, generateForProfile bad ids0 = Ok ([], ids0)).
  { intros ids0. unfold generateForProfile. by rewrite Hbefore. }
  assert (Hsame : oneAfterAnother (l1 ++ bad :: l2) = oneAfterAnother (l1 ++ l2)).
  { rewrite !oneAfterAnother_app. cbn [foldl]. f_equal.
    destruct (oneAfterAnother l1) as [[profiles ids0]|v]; [|done].
    by rewrite Hgen, app_nil_r. }
  split_and!; [apply Hgen|done|].
  intros r ids' Hok. rewrite <- Hsame in Hok.
  destruct (drain_in_order (l1 ++ bad :: l2) [] [] ∅ r ids' (List.Forall_nil _) Hok)
    as (done' & Hdone & Heq).
  cbn [app length] in Heq.
  unfold Generate, fanout. cbn [foldl]. rewrite Heq.
  unfold fanoutResult. cbn [workers ret]. by rewrite find_crashed_finished.
Qed.

Lemma failing_scope_contributes_nothing_witness :
  generateForProfile
    (mkScope "p0" "eu-west-1" (Some "no such profile") (mkReply None None)
       (mkReply None None) (mkReply None None) (λ _, mkReply None None))
    ∅
  = Ok ([], ∅) ∧
  oneAfterAnother
    ([] ++ mkScope "p0" "eu-west-1" (Some "no such profile") (mkReply None None)
             (mkReply None None) (mkReply None None) (λ _, mkReply None None)
        :: [scopeSeeingWeb "p1"])
  = oneAfterAnother ([] ++ [scopeSeeingWeb "p1"]) ∧
  ∀ r ids', oneAfterAnother ([] ++ [scopeSeeingWeb "p1"]) = Ok (r, ids') →
            Generate
              (Some ([] ++ mkScope "p0" "eu-west-1" (Some "no such profile")
                             (mkReply None None) (mkReply None None)
                             (mkReply None None) (λ _, mkReply None None)
                        :: [scopeSeeingWeb "p1"])) []
            = Ok r.
Proof.
  apply (failing_scope_contributes_nothing
           (mkScope "p0" "eu-west-1" (Some "no such profile") (mkReply None None)
              (mkReply None None) (mkReply None None) (λ _, mkReply None None))
           [] [scopeSeeingWeb "p1"] ∅).
  left. by eexists.
Defined.

(** ** Precedence of the sources *)

(** A candidate that no candidate before it shares its name with is in
    every collection that the run hands out, with the fields that the
    augmentation passes leave alone. *)
Lemma first_candidate_is_kept (f : Flags) (w : World) (l1 l2 : list Profile)
    (p : Profile) (e : Event) (c : list Profile) :
  snd (gather f w) = Some (l1 ++ p :: l2) →
  Name p ∉ (Name <$> l1) →
  e ∈ fst (generateCmd f w) → collectionOf e = Some c →
  ∃ q, q ∈ c ∧ Name q = Name p ∧ GUID q = GUID p ∧
       Command q = Command p ∧ Config q = Config p.
Proof.
  intros Hg Hfresh He Hc.
  destruct (generateCmd_collections f w e c He Hc) as (prof & Hg' & Hcase).
  rewrite Hg in Hg'. injection Hg' as <-. cbn zeta in Hcase.
  set (prof := l1 ++ p :: l2) in *.
  set (h := λ p : Profile,
         {| Name := Name p; GUID := GUID p; Command := Command p;
            Config := Config p;
            KeyboardMaps := keyboardMapsFor w prof p;
            Triggers := triggersFor w (UpdateKeyboardMaps w prof)
                          {| Name := Name p; GUID := GUID p; Command := Command p;
                             Config := Config p;
                             KeyboardMaps := keyboardMapsFor w prof p;
                             Triggers := Triggers p |} |}).
  assert (Haug : UpdateAWSSmartSelectionRules w (UpdateKeyboardMaps w prof)
                 = h <$> prof).
  { unfold UpdateAWSSmartSelectionRules.
    set (tr := triggersFor w (UpdateKeyboardMaps w prof)).
    unfold UpdateKeyboardMaps. rewrite List.map_map. reflexivity. }
  assert (Hin : h p ∈ uniqProf (merge (UpdateAWSSmartSelectionRules w
                                         (UpdateKeyboardMaps w prof)))).
  { rewrite merge_uniq, Haug. unfold prof. rewrite fmap_app, fmap_cons.
    apply firstOccurrences_keeps.
    rewrite <- list_fmap_compose. exact Hfresh. }
  exists (h p). split_and!; try done.
  destruct Hcase as [->| ->]; [done|]. by rewrite sortSlice_perm.
Qed.

(** X21. The AWS configuration comes first: a profile that
    [aws.Profiles] yields, and that has no namesake before it in that
    list, is in every collection that a run writes, prints or reports
    a difference for, with its identity key, command and settings,
    whatever the other sources yield under the same name. *)
Theorem aws_profiles_take_precedence (f : Flags) (w : World)
    (l1 l2 : list Profile) (p : Profile) (e : Event) (c : list Profile) :
  awsProfiles w = l1 ++ p :: l2 →
  Name p ∉ (Name <$> l1) →
  e ∈ fst (generateCmd f w) → collectionOf e = Some c →
  ∃ q, q ∈ c ∧ Name q = Name p ∧ GUID q = GUID p ∧
       Command q = Command p ∧ Config q = Config p.
Proof.
  intros Haws Hfresh He Hc.
  destruct (generateCmd_collections f w e c He Hc) as (prof & Hg & _).
  pose proof Hg as Hg'.
  apply gather_default in Hg' as (accounts & after & _ & Hprof).
  rewrite Haws in Hprof. rewrite <- !app_assoc in Hprof. cbn [app] in Hprof.
  rewrite Hprof in Hg.
  by apply (first_candidate_is_kept f w l1 _ p e c Hg).
Qed.

Lemma aws_profiles_take_precedence_witness :
  ∃ q, q ∈ [twinA; defaultProfile; NewProfile "vim" ∅] ∧ Name q = Name twinA ∧
       GUID q = GUID twinA ∧ Command q = Command twinA ∧ Config q = Config twinA.
Proof.
  apply (aws_profiles_take_precedence printFlags awsWorld [] [] twinA
           (JSONPrinted [twinA; defaultProfile; NewProfile "vim" ∅])).
  - reflexivity.
  - apply not_elem_of_nil.
  - vm_compute. do 11 right. left.
  - reflexivity.
Defined.
